(** * flow-finance/secrets: [lib/secrets.js]

    A shallow embedding of the [Secrets] class (constructor, [getSecret],
    [createSecret], [_parseSecrets]) and the properties of its name
    parsing, config-tree building and retry policy.

    JavaScript strings are modelled as [string], plain objects used as
    maps as [gmap string _], the object iterated with [for ... in] as an
    association list in property-creation order, and the instance as a
    record that is passed through the methods that write to it. The
    secret store is a list of the answers it gives to successive
    requests, and [JSON.parse] is a parameter. [getSecretSync], which
    runs [getSecret] in a child process, is covered from the reply of
    that process on. *)

From Stdlib Require Import String Ascii List ZArith Lia.
From Stdlib Require Import Floats.SpecFloat.
From stdpp Require Import base option list gmap strings.

Set Warnings "-register-all".
Local Open Scope string_scope.

(** ** String primitives of the platform *)

Module JsString.

(** [skip n s]: [s] without its first [n] characters. *)
Fixpoint skip (n : nat) (s : string) : string :=
  match n, s with
  | S k, String _ s' => skip k s'
  | _, _ => s
  end.

(** [s.replace(searchValue, '')] for a string [searchValue]: the first
    occurrence, scanning from the left, is removed; no occurrence leaves
    [s] as it is. *)
Fixpoint replace (searchValue s : string) : string :=
  if String.prefix searchValue s then skip (String.length searchValue) s
  else match s with
       | EmptyString => EmptyString
       | String c s' => String c (replace searchValue s')
       end.

(** [s.includes(pat)]. *)
Fixpoint includes (pat s : string) : bool :=
  String.prefix pat s ||
  match s with
  | EmptyString => false
  | String _ s' => includes pat s'
  end.

(** [list.join(sep)] on an array of strings. *)
Fixpoint join (sep : string) (l : list string) : string :=
  match l with
  | [] => ""
  | [x] => x
  | x :: rest => x ++ sep ++ join sep rest
  end.

(** The scan of [s.split(sep)] for a non-empty [sep]: [cur] is the piece
    collected so far and [pending] the number of characters of a matched
    separator still to be passed over. *)
Fixpoint split_scan (sep : string) (pending : nat) (cur : string) (s : string)
  : list string :=
  match pending with
  | S k =>
      match s with
      | EmptyString => [cur]
      | String _ s' => split_scan sep k cur s'
      end
  | O =>
      match s with
      | EmptyString => [cur]
      | String c s' =>
          if String.prefix sep s
          then cur :: split_scan sep (Nat.pred (String.length sep)) "" s'
          else split_scan sep O (cur ++ String c "") s'
      end
  end.

(** [s.split(sep)]: with the empty separator the string falls apart into
    its characters (and the empty string into no piece at all). *)
Definition split (sep s : string) : list string :=
  match sep with
  | EmptyString => (fun c => String c "") <$> list_ascii_of_string s
  | _ => split_scan sep O "" s
  end.

End JsString.

(** ** Values a string-typed option or field can hold *)

(** [options.env], [options.namespace], [options.name], [this.env] and
    [this.namespace] hold [undefined], [null], a string, or (namespace and
    name) an array of strings. *)
Inductive sval : Type :=
| SUndefined
| SNull
| SStr (s : string)
| SArr (l : list string).

(** ToBoolean. *)
Definition struthy (v : sval) : bool :=
  match v with
  | SUndefined | SNull => false
  | SStr s => negb (String.eqb s "")
  | SArr _ => true
  end.

(** ToString, as applied by [+] with a string and by a template literal;
    an array renders as its elements joined with a comma. *)
Definition ToString (v : sval) : string :=
  match v with
  | SUndefined => "undefined"
  | SNull => "null"
  | SStr s => s
  | SArr l => JsString.join "," l
  end.

(** [v.length] as a truth value, for a [v] that is a string or an array. *)
Definition has_length (v : sval) : bool :=
  match v with
  | SStr s => negb (String.eqb s "")
  | SArr l => negb (Nat.eqb (List.length l) 0)
  | _ => false
  end.

(** [a || b]. *)
Definition sor (a b : sval) : sval := if struthy a then a else b.

(** ** The instance and its constructor *)

Definition DEFAULT_REGION : string := "us-west-2".
Definition MAX_RETRY_ATTEMPTS : nat := 3.

(** The fields the constructor assigns. [namespace] is [SUndefined] when
    the property was never assigned. [retryAttempts] counts in [nat]: the
    program only ever adds one to it, starting from zero. *)
Record Secrets : Type := mkSecrets {
  delimiter : string;
  env : sval;
  region : sval;
  namespace : sval;
  retryAttempts : nat
}.

(** The [options] argument of the constructor. A missing key is
    [SUndefined]. *)
Record Options : Type := mkOptions {
  o_delimiter : sval;
  o_env : sval;
  o_region : sval;
  o_namespace : sval;
  o_all : bool
}.

(** What the constructor reads of [process.env]. *)
Record ProcessEnv : Type := mkProcessEnv {
  NODE_ENV : sval;
  AWS_REGION : sval
}.

(** [this.delimiter = options.delimiter || '/']. Every later use of the
    delimiter ([+], a template literal, the separator of [join] and of
    [split]) takes its string rendering, which is what is kept here. *)
Definition delimiter_of (o : sval) : string := ToString (sor o (SStr "/")).

Definition constructor (penv : ProcessEnv) (options : Options) : Secrets :=
  let this_delimiter := delimiter_of (o_delimiter options) in
  let this_env := sor (o_env options) (NODE_ENV penv) in
  let this_region :=
    sor (o_region options) (sor (AWS_REGION penv) (SStr DEFAULT_REGION)) in
  let this_env := if o_all options then SNull else this_env in
  let this_namespace := SUndefined in
  let this_namespace :=
    if struthy (o_namespace options) && has_length (o_namespace options)
    then
      let this_namespace :=
        match o_namespace options with
        | SArr l => SStr (JsString.join this_delimiter l)
        | _ => this_namespace
        end in
      (* line 43: assigned whether or not line 40 ran *)
      let this_namespace := o_namespace options in
      this_namespace
    else this_namespace in
  {| delimiter := this_delimiter;
     env := this_env;
     region := this_region;
     namespace := this_namespace;
     retryAttempts := 0 |}.

(** ** Decoded values and the config tree *)

(** What [JSON.parse] can return, and [undefined]. Numbers are IEEE 754
    doubles. A plain object is a finite map from property name to value. *)
Inductive value : Type :=
| VUndefined
| VNull
| VBool (b : bool)
| VNum (x : spec_float)
| VStr (s : string)
| VArr (l : list value)
| VObj (m : gmap string value).

(** ToBoolean: [undefined], [null], [false], zero, NaN and the empty
    string are falsy; every object and array is truthy. *)
Definition truthy (v : value) : bool :=
  match v with
  | VUndefined | VNull => false
  | VBool b => b
  | VNum (S754_zero _) | VNum S754_nan => false
  | VNum _ => true
  | VStr s => negb (String.eqb s "")
  | VArr _ | VObj _ => true
  end.

(** ** [createSecret] *)

(** What is handed over as [options.secrets]: a string goes out as it is,
    anything else through [JSON.stringify]. *)
Inductive SecretPayload : Type :=
| BinaryPayload (bytes : list Byte.byte)
| StringPayload (text : string)
| StringifiedPayload (v : value).

Record CreateOptions : Type := mkCreateOptions {
  c_name : sval;
  c_description : sval;
  c_token : sval;
  c_kms : sval;
  c_tags : option (list (string * string));
  c_secrets : value;
  c_secretsBinary : option (list Byte.byte)
}.

(** The parameters of the [CreateSecretCommand]; [None] is a key that was
    not set. *)
Module CreateSecretCommand.
Record params : Type := mkParams {
  Name : sval;
  Description : option sval;
  ClientRequestToken : option sval;
  KmsKeyId : option sval;
  Tags : option (list (string * string));
  Payload : SecretPayload
}.
End CreateSecretCommand.

(** Lines 172-182: the name as it stands after each of the three steps. *)
Definition joined_name (this : Secrets) (name : sval) : sval :=
  match name with
  | SArr l => SStr (JsString.join (delimiter this) l)
  | _ => name
  end.

Definition with_env (this : Secrets) (name : sval) : sval :=
  if struthy (env this)
  then SStr (ToString (env this) ++ delimiter this ++ ToString name)
  else name.

Definition with_namespace (this : Secrets) (name : sval) : sval :=
  if struthy (namespace this)
  then SStr (ToString (namespace this) ++ delimiter this ++ ToString name)
  else name.

Definition given (v : sval) : option sval :=
  if struthy v && has_length v then Some v else None.

Definition createSecret (this : Secrets) (options : CreateOptions)
  : CreateSecretCommand.params :=
  let name := joined_name this (c_name options) in
  let name := with_env this name in
  let name := with_namespace this name in
  {| CreateSecretCommand.Name := name;
     CreateSecretCommand.Description := given (c_description options);
     CreateSecretCommand.ClientRequestToken := given (c_token options);
     CreateSecretCommand.KmsKeyId := given (c_kms options);
     CreateSecretCommand.Tags := c_tags options;
     CreateSecretCommand.Payload :=
       match c_secretsBinary options with
       | Some bytes => BinaryPayload bytes
       | None =>
           match c_secrets options with
           | VStr text => StringPayload text
           | other => StringifiedPayload other
           end
       end |}.

(** ** The key parser of [_parseSecrets] *)

(** Lines 236-238: both replacements are made whatever [this.namespace]
    and [this.env] hold; [+] renders them as strings first. *)
Definition strip (this : Secrets) (name : string) : string :=
  JsString.replace (ToString (env this) ++ delimiter this)
    (JsString.replace (ToString (namespace this) ++ delimiter this) name).

(** Line 252: the path of a stripped name. *)
Definition path_of (this : Secrets) (name : string) : list string :=
  JsString.split (delimiter this) (strip this name).

(** ** Completions *)

Inductive exn : Type := SyntaxError | TypeError.

(** How a piece of the program ends: with a value, with an exception, or
    in a way that this development does not follow ([Unmodelled]): the run
    reads or writes a property inherited from [Object.prototype], or
    walks into an array. *)
Inductive outcome (A : Type) : Type :=
| Returned (a : A)
| Thrown (e : exn)
| Unmodelled.
Arguments Returned {A} a.
Arguments Thrown {A} e.
Arguments Unmodelled {A}.

#[global] Instance outcome_ret : MRet outcome := @Returned.

#[global] Instance outcome_bind : MBind outcome := fun A B k m =>
  match m with
  | Returned a => k a
  | Thrown e => Thrown e
  | Unmodelled => Unmodelled
  end.

(** [try { m } catch (err) { handler }]. *)
Definition try_catch {A : Type} (m : outcome A) (handler : exn -> outcome A)
  : outcome A :=
  match m with
  | Thrown e => handler e
  | other => other
  end.

(** [JSON.parse] is the platform's: [None] is a thrown [SyntaxError]. *)
Class JSON : Type := { JSON_parse : string -> option value }.

Definition call_JSON_parse `{JSON} (text : string) : outcome value :=
  match JSON_parse text with
  | Some v => Returned v
  | None => Thrown SyntaxError
  end.

(** ** Property access on the values of the tree *)

(** The property names every plain object inherits from
    [Object.prototype]. *)
Definition Object_prototype_keys : list string :=
  [ "constructor"; "__defineGetter__"; "__defineSetter__"; "hasOwnProperty";
    "__lookupGetter__"; "__lookupSetter__"; "isPrototypeOf";
    "propertyIsEnumerable"; "toString"; "valueOf"; "__proto__";
    "toLocaleString" ].

Definition inherited (k : string) : bool :=
  existsb (String.eqb k) Object_prototype_keys.

(** [x || {}]. *)
Definition or_empty (x : value) : value := if truthy x then x else VObj ∅.

(** The statement [cache = cache[part] = cache[part] || {}] (line 258),
    taken as a whole: the value [cache] goes on with. On a plain object a
    falsy or missing property gives a fresh empty object. On a primitive
    the read has no effect and the write throws (a class body is strict
    code), unless the name reaches the [__proto__] accessor. *)
Definition enter (cache : value) (part : string) : outcome value :=
  match cache with
  | VObj m =>
      match m !! part with
      | Some x => Returned (or_empty x)
      | None => if inherited part then Unmodelled else Returned (or_empty VUndefined)
      end
  | VArr _ => Unmodelled
  | VBool _ | VNum _ | VStr _ =>
      if String.eqb part "__proto__" then Unmodelled else Thrown TypeError
  | VUndefined | VNull => Thrown TypeError
  end.

(** The assignment [cache[key] = v] and the object as it is afterwards. *)
Definition store (cache : value) (key : string) (v : value) : outcome value :=
  match cache with
  | VObj m =>
      match m !! key with
      | Some _ => Returned (VObj (<[key := v]> m))
      | None =>
          if String.eqb key "__proto__" then Unmodelled
          else Returned (VObj (<[key := v]> m))
      end
  | VArr _ => Unmodelled
  | VBool _ | VNum _ | VStr _ =>
      if String.eqb key "__proto__" then Unmodelled else Thrown TypeError
  | VUndefined | VNull => Thrown TypeError
  end.

(** Lines 256-260 for one item: the walk along [parts] and the assignment
    at [key]. The object that [enter] hands on is the one its parent
    holds, so what the rest of the walk does to it shows in the parent. *)
Fixpoint assign (cache : value) (parts : list string) (key : string) (v : value)
  : outcome value :=
  match parts with
  | [] => store cache key v
  | part :: parts' =>
      next ← enter cache part;
      next' ← assign next parts' key v;
      match cache with
      | VObj m => Returned (VObj (<[part := next']> m))
      | _ => Unmodelled
      end
  end.

(** [parts.pop()]: the last element and the array without it. On an empty
    array the key is [undefined], which names the property
    ["undefined"]. *)
Definition pop (parts : list string) : list string * string :=
  match List.rev parts with
  | [] => ([], "undefined")
  | key :: before => (List.rev before, key)
  end.

(** Lines 253-260: one round of the second loop, once the item is split
    into its path. *)
Definition put (res : value) (path : list string) (v : value) : outcome value :=
  let '(parts, key) := pop path in
  assign res parts key v.

(** Lines 251-260. *)
Definition place (d : string) (res : value) (item : string) (v : value)
  : outcome value :=
  put res (JsString.split d item) v.

(** ** The object [config] and its [for ... in] order *)

(** [config] in the order its properties were created. *)
Definition config_t : Type := list (string * value).

Fixpoint config_update (name : string) (v : value) (config : config_t)
  : option config_t :=
  match config with
  | [] => None
  | (k, w) :: rest =>
      if String.eqb k name then Some ((k, v) :: rest)
      else cons (k, w) <$> config_update name v rest
  end.

(** [config[name] = v]: an existing property keeps its place. The name
    [__proto__] reaches the accessor of [Object.prototype]. *)
Definition config_set (name : string) (v : value) (config : config_t)
  : outcome config_t :=
  if String.eqb name "__proto__" then Unmodelled
  else match config_update name v config with
       | Some config' => Returned config'
       | None => Returned (config ++ [(name, v)])%list
       end.

Definition digit_of (c : ascii) : option N :=
  let n := N_of_ascii c in
  if (48 <=? n)%N && (n <=? 57)%N then Some (n - 48)%N else None.

Fixpoint digits_value (acc : N) (s : string) : option N :=
  match s with
  | EmptyString => Some acc
  | String c s' =>
      match digit_of c with
      | Some d => digits_value (10 * acc + d)%N s'
      | None => None
      end
  end.

(** An array index: the decimal numeral, without leading zeros, of an
    integer below [2^32 - 1]. *)
Definition array_index (k : string) : option N :=
  match k with
  | EmptyString => None
  | String c rest =>
      if Ascii.eqb c "0" && negb (String.eqb rest "") then None
      else match digits_value 0 k with
           | Some n => if (n <? 4294967295)%N then Some n else None
           | None => None
           end
  end.

Fixpoint insert_index (n : N) (k : string) (l : list (N * string))
  : list (N * string) :=
  match l with
  | [] => [(n, k)]
  | (m, j) :: rest =>
      if (n <? m)%N then (n, k) :: l else (m, j) :: insert_index n k rest
  end.

(** The keys a [for ... in] over [config] visits: array indices in
    ascending order, then the other names in creation order. *)
Definition for_in (config : config_t) : list string :=
  let indices :=
    fold_right
      (fun kv acc =>
         match array_index (fst kv) with
         | Some n => insert_index n (fst kv) acc
         | None => acc
         end) [] config in
  let names :=
    List.filter
      (fun k => match array_index k with Some _ => false | None => true end)
      (fst <$> config)
  in
  ((snd <$> indices) ++ names)%list.

(** [config[item]] for an own property. *)
Fixpoint config_get (item : string) (config : config_t) : value :=
  match config with
  | [] => VUndefined
  | (k, w) :: rest => if String.eqb k item then w else config_get item rest
  end.

(** ** [_parseSecrets] *)

(** A record as the store returns it. A secret kept as binary has no
    [SecretString]. *)
Record SecretValue : Type := mkSecretValue {
  Name : string;
  SecretString : option string
}.

(** [secret.SecretString] as a value, and as the text [JSON.parse] sees. *)
Definition raw_value (field : option string) : value :=
  match field with
  | Some text => VStr text
  | None => VUndefined
  end.

Definition text_of (field : option string) : string :=
  match field with
  | Some text => text
  | None => "undefined"
  end.

(** Lines 249-261. *)
Fixpoint second_loop (d : string) (config : config_t) (items : list string)
  (res : value) : outcome value :=
  match items with
  | [] => Returned res
  | item :: rest =>
      res ← place d res item (config_get item config);
      second_loop d config rest res
  end.

Section ParseSecrets.

Context `{JSON}.

(** Lines 241-245. *)
Definition decode_into (config : config_t) (name : string) (secret : SecretValue)
  : outcome config_t :=
  try_catch
    (v ← call_JSON_parse (text_of (SecretString secret));
     config_set name v config)
    (fun err => config_set name (raw_value (SecretString secret)) config).

(** Lines 234-247. *)
Fixpoint first_loop (this : Secrets) (list : list SecretValue) (config : config_t)
  : outcome config_t :=
  match list with
  | [] => Returned config
  | secret :: rest =>
      let name := strip this (Name secret) in
      config ← decode_into config name secret;
      first_loop this rest config
  end.

Definition _parseSecrets (this : Secrets) (list : list SecretValue)
  : outcome value :=
  let res := VObj ∅ in
  let config := [] in
  config ← first_loop this list config;
  second_loop (delimiter this) config (for_in config) res.

End ParseSecrets.

(** ** [getSecret] *)

Record GetOptions : Type := mkGetOptions {
  id : sval;
  version : sval;
  stage : sval;
  raw : bool
}.

Module GetSecretValueCommand.
Record params : Type := mkParams {
  SecretId : sval;
  VersionId : option sval;
  VersionStage : option sval
}.
End GetSecretValueCommand.

(** Lines 68-77. *)
Definition request (options : GetOptions) : GetSecretValueCommand.params :=
  let params := GetSecretValueCommand.mkParams (id options) None None in
  if struthy (version options) then
    GetSecretValueCommand.mkParams
      (GetSecretValueCommand.SecretId params) (Some (version options))
      (GetSecretValueCommand.VersionStage params)
  else if struthy (stage options) then
    GetSecretValueCommand.mkParams
      (GetSecretValueCommand.SecretId params)
      (GetSecretValueCommand.VersionId params) (Some (stage options))
  else params.

(** An error the store rejects with. *)
Record StoreError : Type := mkStoreError {
  errorMessage : sval;
  code : string
}.

(** What [this.secretsmanager.send(command)] settles with. *)
Inductive response : Type :=
| Resolves (secret : SecretValue)
| Rejects (err : StoreError).

(** What the promise of [getSecret] settles with; [Pending] when the
    store never answers. *)
Inductive settled : Type :=
| FulfilledRaw (secret : SecretValue)
| Fulfilled (secretString : option string)
| Rejected (err : StoreError)
| Pending.

(** [a === b] on strings and the two empty values. *)
Definition strict_equal (a b : sval) : bool :=
  match a, b with
  | SUndefined, SUndefined => true
  | SNull, SNull => true
  | SStr x, SStr y => String.eqb x y
  | _, _ => false
  end.

(** Where the class body puts its members: the constructor assigns the
    fields to the instance, the methods are properties of
    [Secrets.prototype], and what is declared [static] is a property of
    the constructor function [Secrets]. *)
Inductive holder : Type := OnInstance | OnPrototype | OnConstructor.

Definition declared (name : string) : option holder :=
  if existsb (String.eqb name)
       ["delimiter"; "env"; "region"; "namespace"; "retryAttempts";
        "secretsmanager"]
  then Some OnInstance
  else if existsb (String.eqb name)
            ["getSecret"; "getSecretSync"; "createSecret"; "_parseSecrets"]
  then Some OnPrototype
  else if String.eqb name "MAX_RETRY_ATTEMPTS" then Some OnConstructor
  else None.

Definition own_number (this : Secrets) (name : string) : option nat :=
  if String.eqb name "retryAttempts" then Some (retryAttempts this) else None.

(** [Secrets.name], read as a number. *)
Definition static_number (name : string) : option nat :=
  match declared name with
  | Some OnConstructor => Some MAX_RETRY_ATTEMPTS
  | _ => None
  end.

(** [this.name], read as a number; [None] is NaN. The lookup goes from
    the instance to [Secrets.prototype] and on to [Object.prototype]. The
    constructor function is not on that chain: a static member is not
    found and the property is [undefined], which converts to NaN, as a
    method does. *)
Definition this_number (this : Secrets) (name : string) : option nat :=
  match declared name with
  | Some OnInstance => own_number this name
  | Some OnPrototype => None
  | Some OnConstructor => None
  | None => None
  end.

(** [a <= b] on numbers: [undefined] converts to NaN, and a comparison
    with NaN is false. *)
Definition number_le (a b : option nat) : bool :=
  match a, b with
  | Some x, Some y => Nat.leb x y
  | _, _ => false
  end.

(** What a call does that can be seen from outside, in order. *)
Inductive event : Type :=
| Sent (command : GetSecretValueCommand.params)
| ConsoleError (attempt : option nat) (limit : option nat)
| SetTimeout (ms : nat).

(** Lines 66-111. [store] lists what the store answers to the successive
    [send]s. The instance comes back with the call, as the retry branch
    writes to it. *)
Fixpoint getSecret (store : list response) (this : Secrets) (options : GetOptions)
  : Secrets * list event * settled :=
  let command := request options in
  match store with
  | [] => (this, [Sent command], Pending)
  | Resolves secret :: _ =>
      if raw options then (this, [Sent command], FulfilledRaw secret)
      else (this, [Sent command], Fulfilled (SecretString secret))
  | Rejects err :: store' =>
      if struthy (errorMessage err)
         && strict_equal (errorMessage err) (SStr "Rate exceeded")
         && number_le (this_number this "retryAttempts")
                      (this_number this "MAX_RETRY_ATTEMPTS")
      then
        let this :=
          {| delimiter := delimiter this; env := env this;
             region := region this; namespace := namespace this;
             retryAttempts := S (retryAttempts this) |} in
        let diagnostic :=
          ConsoleError (this_number this "retryAttempts")
                       (this_number this "MAX_RETRY_ATTEMPTS") in
        let '(this, events, result) := getSecret store' this options in
        (this, Sent command :: diagnostic :: SetTimeout 1050 :: events, result)
      else (this, [Sent command], Rejected err)
  end.

(** ** Notions the statements below are written with *)

(** The tree that holds [x] at [path] and nothing else. *)
Fixpoint nest (path : list string) (x : value) : value :=
  match path with
  | [] => x
  | k :: path' => VObj {[ k := nest path' x ]}
  end.

(** The values that are no objects and hold a property of their own
    only to be read. *)
Definition primitive (v : value) : bool :=
  match v with
  | VBool _ | VNum _ | VStr _ => true
  | _ => false
  end.

(** The double nearest to an integer. *)
Definition number_of_Z (z : Z) : spec_float := binary_normalize 53 1024 z 0 false.

(** A name no plain object inherits. *)
Definition plain (k : string) : Prop := inherited k = false.

(** [t] is [s] without the first occurrence of [p], or [s] itself when
    [p] does not occur in it. *)
Definition first_occurrence_removed (p s t : string) : Prop :=
  (JsString.includes p s = false /\ t = s) \/
  (exists pre post : string,
      s = pre ++ p ++ post /\
      (forall pre' post' : string,
          s = pre' ++ p ++ post' -> String.length pre <= String.length pre') /\
      t = pre ++ post).

(** What lines 241-245 keep for a record. *)
Definition decoded_value `{JSON} (secret : SecretValue) : value :=
  match JSON_parse (text_of (SecretString secret)) with
  | Some v => v
  | None => raw_value (SecretString secret)
  end.

(** [getSecret] as it would run if [this.MAX_RETRY_ATTEMPTS] held
    [limit]; with [None] it is [getSecret] itself. Used to tell what the
    retry test does from what it is given to read. *)
Fixpoint getSecret_reading (limit : option nat) (store : list response)
  (this : Secrets) (options : GetOptions) : Secrets * list event * settled :=
  let command := request options in
  match store with
  | [] => (this, [Sent command], Pending)
  | Resolves secret :: _ =>
      if raw options then (this, [Sent command], FulfilledRaw secret)
      else (this, [Sent command], Fulfilled (SecretString secret))
  | Rejects err :: store' =>
      if struthy (errorMessage err)
         && strict_equal (errorMessage err) (SStr "Rate exceeded")
         && number_le (this_number this "retryAttempts") limit
      then
        let this :=
          {| delimiter := delimiter this; env := env this;
             region := region this; namespace := namespace this;
             retryAttempts := S (retryAttempts this) |} in
        let diagnostic :=
          ConsoleError (this_number this "retryAttempts") limit in
        let '(this, events, result) :=
          getSecret_reading limit store' this options in
        (this, Sent command :: diagnostic :: SetTimeout 1050 :: events, result)
      else (this, [Sent command], Rejected err)
  end.

(** The instance after a series of [getSecret] calls, each with its
    options and with what the store answers during it. *)
Fixpoint after_calls (this : Secrets) (calls : list (list response * GetOptions))
  : Secrets :=
  match calls with
  | [] => this
  | (store, options) :: rest =>
      after_calls (fst (fst (getSecret store this options))) rest
  end.

(** ** [createSecret]: what it leaves in the caller's options *)

(** Lines 173, 177 and 181 assign to [options.name]: the object the
    caller passed holds the composed name once the call is over. *)
Definition createSecret_options (this : Secrets) (options : CreateOptions)
  : CreateOptions :=
  {| c_name := CreateSecretCommand.Name (createSecret this options);
     c_description := c_description options;
     c_token := c_token options;
     c_kms := c_kms options;
     c_tags := c_tags options;
     c_secrets := c_secrets options;
     c_secretsBinary := c_secretsBinary options |}.

(** ** [getSecretSync] *)

(** What a call can throw: an exception of the platform, or the [Error]
    of line 142, kept here with the value its message is made from. *)
Inductive failure : Type :=
| Native (e : exn)
| ErrorOf (message : value).

Inductive sync (A : Type) : Type :=
| SyncReturned (a : A)
| SyncThrown (f : failure).
Arguments SyncReturned {A} a.
Arguments SyncThrown {A} f.

#[global] Instance sync_ret : MRet sync := @SyncReturned.

#[global] Instance sync_bind : MBind sync := fun A B k m =>
  match m with
  | SyncReturned a => k a
  | SyncThrown f => SyncThrown f
  end.

(** The property names the reply of the child process is read by. No
    prototype holds any of them. *)
Inductive wire_key : Type := wire_error | wire_config | wire_message | wire_code.

Definition wire_name (k : wire_key) : string :=
  match k with
  | wire_error => "error"
  | wire_config => "config"
  | wire_message => "message"
  | wire_code => "code"
  end.

(** [v.error], [v.config], [v.message], [v.code]: the own property of an
    object, [undefined] on a value that has no such property, and a
    [TypeError] on [null] and [undefined]. *)
Definition field (v : value) (k : wire_key) : sync value :=
  match v with
  | VObj m => SyncReturned (default VUndefined (m !! wire_name k))
  | VUndefined | VNull => SyncThrown (Native TypeError)
  | VBool _ | VNum _ | VStr _ | VArr _ => SyncReturned VUndefined
  end.

Section GetSecretSync.

Context `{JSON}.

Definition sync_JSON_parse (text : string) : sync value :=
  match JSON_parse text with
  | Some v => SyncReturned v
  | None => SyncThrown (Native SyntaxError)
  end.

(** Lines 146-150: a config that is a string is parsed once more, and
    kept as it is when it does not parse. *)
Definition decode_config (config : value) : value :=
  match config with
  | VStr text =>
      match JSON_parse text with
      | Some v => v
      | None => config
      end
  | _ => config
  end.

(** Lines 139-152. The child process is outside: [stdout] is what
    [spawnSync] captured of its standard output, [None] when it captured
    nothing at all ([result.stdout] is [null]). *)
Definition getSecretSync (stdout : option string) : sync value :=
  match stdout with
  | None => SyncThrown (Native TypeError)
  | Some text =>
      res ← sync_JSON_parse text;
      err ← field res wire_error;
      if truthy err then
        message ← field err wire_message;
        message ← (if truthy message then SyncReturned message
                   else field err wire_code);
        SyncThrown (ErrorOf message)
      else
        config ← field res wire_config;
        let config := decode_config config in
        SyncReturned (or_empty config)
  end.

End GetSecretSync.

(** ** More notions for the statements below *)

(** Reading the tree along a path of own properties, as [tree.a.b]
    reads it. *)
Fixpoint lookup_path (t : value) (path : list string) : option value :=
  match path with
  | [] => Some t
  | k :: rest =>
      match t with
      | VObj m => m !! k ≫= fun x => lookup_path x rest
      | _ => None
      end
  end.

(** Two paths that part ways: after a common start, each goes on with a
    segment of its own. *)
Definition diverge (p q : list string) : Prop :=
  exists (c : list string) (k1 k2 : string) (p' q' : list string),
    p = (c ++ k1 :: p')%list /\ q = (c ++ k2 :: q')%list /\ k1 <> k2.

(** The last record of the list whose stripped name is [n]. *)
Fixpoint latest (this : Secrets) (n : string) (list : list SecretValue)
  : option SecretValue :=
  match list with
  | [] => None
  | secret :: rest =>
      match latest this n rest with
      | Some later => Some later
      | None => if String.eqb (strip this (Name secret)) n then Some secret else None
      end
  end.

(** The double quote, and two replies of the child process as they
    are on the wire: [{"config":"5432"}] and
    [{"error":{"code":"Throttled"}}]. *)
Definition quoted (s : string) : string :=
  String (Ascii.ascii_of_nat 34) s ++ String (Ascii.ascii_of_nat 34) "".

Definition sample_reply : string :=
  "{" ++ quoted "config" ++ ":" ++ quoted "5432" ++ "}".

Definition sample_error_reply : string :=
  "{" ++ quoted "error" ++ ":{" ++ quoted "code" ++ ":" ++ quoted "Throttled"
  ++ "}}".

(** [JSON.parse] on the few texts the examples below use: it reads them
    as the platform does. Any other text is left unparsed here, which is
    right for the plain words of the examples and for nothing else. *)
Definition sample_JSON : JSON :=
  {| JSON_parse := fun text =>
       if String.eqb text "null" then Some VNull
       else if String.eqb text "true" then Some (VBool true)
       else if String.eqb text "false" then Some (VBool false)
       else if String.eqb text "0" then Some (VNum (number_of_Z 0))
       else if String.eqb text "5432" then Some (VNum (number_of_Z 5432))
       else if String.eqb text "{}" then Some (VObj ∅)
       else if String.eqb text "[]" then Some (VArr [])
       else if String.eqb text sample_reply
       then Some (VObj {[ "config" := VStr "5432" ]})
       else if String.eqb text sample_error_reply
       then Some (VObj {[ "error" := VObj {[ "code" := VStr "Throttled" ]} ]})
       else None |}.

(** The tree [t] holds the pairs of [pairs] and nothing beside them:
    each value is read at its path, and whatever can be read at a path
    lies on the way to one of the pairs or below one. *)
Definition holds (t : value) (pairs : list (list string * value)) : Prop :=
  (exists m, t = VObj m) /\
  (forall p v, (p, v) ∈ pairs -> lookup_path t p = Some v) /\
  (forall r x, r <> [] -> lookup_path t r = Some x ->
     exists p v, (p, v) ∈ pairs /\ (r `prefix_of` p \/ p `prefix_of` r)).

(** * Properties *)

(** ** Strings *)

Section StringFacts.

Import JsString.

Lemma append_cons (c : ascii) (a b : string) : String c a ++ b = String c (a ++ b).
Proof. reflexivity. Qed.

Lemma append_assoc (a b c : string) : (a ++ b) ++ c = a ++ b ++ c.
Proof.
  induction a as [|x a IH]; [reflexivity|].
  rewrite !append_cons. now rewrite IH.
Qed.

Lemma append_empty_r (a : string) : a ++ "" = a.
Proof. induction a as [|x a IH]; [reflexivity|]. now rewrite append_cons, IH. Qed.

Lemma prefix_app (p s : string) : String.prefix p (p ++ s) = true.
Proof.
  induction p as [|c p IH].
  - now destruct s.
  - rewrite append_cons. cbn [String.prefix].
    destruct (Ascii.ascii_dec c c); [exact IH | congruence].
Qed.

Lemma skip_app (p s : string) : skip (String.length p) (p ++ s) = s.
Proof.
  induction p as [|c p IH]; [now destruct s|].
  rewrite append_cons. exact IH.
Qed.

Lemma prefix_split (p s : string) :
  String.prefix p s = true -> s = p ++ skip (String.length p) s.
Proof.
  revert p. induction s as [|c s IH]; intros [|a p] Hp; try reflexivity.
  - discriminate.
  - cbn [String.prefix] in Hp. destruct (Ascii.ascii_dec a c) as [->|]; [|discriminate].
    rewrite append_cons. cbn [String.length skip]. now rewrite <- IH.
Qed.

Lemma replace_unfold (p s : string) :
  replace p s =
  if String.prefix p s then skip (String.length p) s
  else match s with
       | EmptyString => EmptyString
       | String c s' => String c (replace p s')
       end.
Proof. now destruct s. Qed.

Lemma includes_unfold (p s : string) :
  includes p s =
  String.prefix p s ||
  match s with
  | EmptyString => false
  | String _ s' => includes p s'
  end.
Proof. now destruct s. Qed.

(** A search value at the very start of the string is the occurrence
    that [replace] removes. *)
Lemma replace_at_start (p s : string) : replace p (p ++ s) = s.
Proof. now rewrite replace_unfold, prefix_app, skip_app. Qed.

Lemma replace_absent (p s : string) : includes p s = false -> replace p s = s.
Proof.
  induction s as [|c s IH]; intros Hin; rewrite includes_unfold in Hin;
    apply orb_false_elim in Hin as [Hp Hin]; rewrite replace_unfold, Hp.
  - reflexivity.
  - now rewrite IH.
Qed.

Lemma replace_matching (p s : string) :
  String.prefix p s = true ->
  exists pre post : string,
    s = pre ++ p ++ post /\
    (forall pre' post' : string,
        s = pre' ++ p ++ post' -> String.length pre <= String.length pre') /\
    replace p s = pre ++ post.
Proof.
  intros Hp. exists "", (skip (String.length p) s). repeat split.
  - now apply prefix_split.
  - intros; cbn; lia.
  - now rewrite replace_unfold, Hp.
Qed.

Lemma replace_present (p s : string) :
  includes p s = true ->
  exists pre post : string,
    s = pre ++ p ++ post /\
    (forall pre' post' : string,
        s = pre' ++ p ++ post' -> String.length pre <= String.length pre') /\
    replace p s = pre ++ post.
Proof.
  induction s as [|c s IH]; intros Hin;
    [destruct (String.prefix p "") eqn:Hp
    |destruct (String.prefix p (String c s)) eqn:Hp];
    try (now apply replace_matching);
    rewrite includes_unfold, Hp in Hin; [discriminate|].
  destruct (IH Hin) as (pre & post & Hs & Hmin & Hrep).
  exists (String c pre), post. repeat split.
  - now rewrite append_cons, <- Hs.
  - intros [|c' pre'] post' Heq.
    + change ("" ++ p ++ post') with (p ++ post') in Heq.
      rewrite Heq, prefix_app in Hp. discriminate.
    + rewrite append_cons in Heq. injection Heq as -> Heq.
      cbn [String.length]. apply le_n_S. now apply (Hmin pre' post').
  - now rewrite replace_unfold, Hp, Hrep.
Qed.

Lemma replace_first_occurrence (p s : string) :
  first_occurrence_removed p s (replace p s).
Proof.
  destruct (includes p s) eqn:Hin.
  - right. now apply replace_present.
  - left. split; [assumption | now apply replace_absent].
Qed.

Lemma includes_app (pre p post : string) : includes p (pre ++ p ++ post) = true.
Proof.
  induction pre as [|c pre IH]; rewrite includes_unfold.
  - change ("" ++ p ++ post) with (p ++ post). now rewrite prefix_app.
  - rewrite append_cons, IH. apply orb_true_r.
Qed.

(** [includes] is the test for an occurrence. *)
Lemma includes_spec (p s : string) :
  includes p s = true <-> exists pre post : string, s = pre ++ p ++ post.
Proof.
  split.
  - intros Hin. destruct (replace_present p s Hin) as (pre & post & Hs & _).
    now exists pre, post.
  - intros (pre & post & ->). apply includes_app.
Qed.

Example split_samples :
  split "/" "db/password" = ["db"; "password"] /\
  split "/" "" = [""] /\
  split "/" "a//b/" = ["a"; ""; "b"; ""] /\
  split "ab" "xabyabab" = ["x"; "y"; ""; ""] /\
  split "aa" "aaa" = [""; "a"] /\
  split "" "abc" = ["a"; "b"; "c"] /\
  split "" "" = [].
Proof. repeat split. Qed.

Example replace_samples :
  replace "acme/" "acme/prod/db" = "prod/db" /\
  replace "null/" "xnull/y/null/" = "xy/null/" /\
  replace "prod/" "acme/db" = "acme/db" /\
  replace "" "abc" = "abc".
Proof. repeat split. Qed.

End StringFacts.

(** ** The constructor *)

Lemma constructor_all (penv : ProcessEnv) (options : Options) :
  o_all options = true -> env (constructor penv options) = SNull.
Proof. intros Hall. unfold constructor. cbn. now rewrite Hall. Qed.

Lemma constructor_no_namespace (penv : ProcessEnv) (options : Options) :
  o_namespace options = SUndefined ->
  namespace (constructor penv options) = SUndefined.
Proof. intros Hns. unfold constructor. cbn. now rewrite Hns. Qed.

Lemma constructor_counter (penv : ProcessEnv) (options : Options) :
  retryAttempts (constructor penv options) = 0.
Proof. reflexivity. Qed.

(** The delimiter of an instance is never the empty string. *)
Lemma constructor_delimiter (penv : ProcessEnv) (options : Options) :
  (forall l, o_delimiter options <> SArr l) ->
  delimiter (constructor penv options) <> "".
Proof.
  intros Harr. unfold constructor, delimiter_of, sor. cbn.
  destruct (o_delimiter options) as [| |d|l]; cbn; try discriminate.
  - destruct (String.eqb_spec d ""); cbn; [discriminate | assumption].
  - now destruct (Harr l).
Qed.

(** ** [split] after [join], for a delimiter of one character *)

Section SplitJoin.

Import JsString.

Variable c : ascii.

Let d : string := String c "".

Lemma prefix_char (a : ascii) (s : string) :
  String.prefix d (String a s) = if Ascii.ascii_dec c a then true else false.
Proof. cbn. destruct (Ascii.ascii_dec c a); [now destruct s | reflexivity]. Qed.

Lemma split_scan_piece (x cur : string) :
  includes d x = false ->
  split_scan d 0 cur x = [cur ++ x] /\
  forall rest, split_scan d 0 cur (x ++ String c rest)
               = (cur ++ x) :: split_scan d 0 "" rest.
Proof.
  revert cur. induction x as [|a x IH]; intros cur Hx.
  - rewrite append_empty_r. split; [reflexivity|]. intros rest.
    change ("" ++ String c rest) with (String c rest).
    cbn [split_scan]. rewrite prefix_char.
    destruct (Ascii.ascii_dec c c); [reflexivity | congruence].
  - rewrite includes_unfold in Hx. apply orb_false_elim in Hx as [Ha Hx].
    rewrite prefix_char in Ha.
    destruct (IH (cur ++ String a "") Hx) as [IH1 IH2].
    rewrite append_assoc in IH1, IH2. split; [|intros rest; rewrite append_cons];
      cbn [split_scan]; rewrite prefix_char;
      destruct (Ascii.ascii_dec c a); try discriminate; auto.
Qed.

Lemma split_join (segments : list string) :
  segments <> [] ->
  Forall (fun x => includes d x = false) segments ->
  split d (join d segments) = segments.
Proof.
  intros Hne Hall. unfold split, d. fold d.
  induction Hall as [|x rest Hx Hrest IH]; [congruence|].
  destruct rest as [|y rest].
  - cbn [join]. now apply split_scan_piece.
  - change (join d (x :: y :: rest)) with (x ++ String c (join d (y :: rest))).
    destruct (split_scan_piece x "" Hx) as [_ ->].
    now rewrite IH.
Qed.

End SplitJoin.

(** ** Names written and names read *)

(** C9: a namespace given as a non-empty array is stored as that array,
    the string joined with the delimiter being overwritten at once; the
    name [createSecret] sends then starts with the array's own rendering,
    its elements joined with a comma. *)
Theorem array_namespace_kept_as_array
  (penv : ProcessEnv) (options : Options) (l : list string)
  (create : CreateOptions) :
  o_namespace options = SArr l ->
  l <> [] ->
  let this := constructor penv options in
  namespace this = SArr l /\
  namespace this <> SStr (JsString.join (delimiter this) l) /\
  CreateSecretCommand.Name (createSecret this create) =
    SStr (JsString.join "," l ++ delimiter this ++
          ToString (with_env this (joined_name this (c_name create)))).
Proof.
  intros Hns Hne this.
  assert (Hthis : namespace this = SArr l).
  { unfold this, constructor. cbn. rewrite Hns. cbn.
    destruct l; [congruence | reflexivity]. }
  split; [exact Hthis|]. split; [rewrite Hthis; discriminate|].
  unfold createSecret. cbn. unfold with_namespace. now rewrite Hthis.
Qed.

Lemma array_namespace_kept_as_array_witness :
  let options :=
    mkOptions SUndefined (SStr "prod") SUndefined (SArr ["acme"; "pay"]) false in
  let this := constructor (mkProcessEnv SUndefined SUndefined) options in
  namespace this = SArr ["acme"; "pay"] /\
  CreateSecretCommand.Name
    (createSecret this
       (mkCreateOptions (SStr "db/password") SUndefined SUndefined SUndefined
          None (VStr "s3cr3t") None))
  = SStr "acme,pay/prod/db/password".
Proof.
  intros options this.
  destruct (array_namespace_kept_as_array
              (mkProcessEnv SUndefined SUndefined) options ["acme"; "pay"]
              (mkCreateOptions (SStr "db/password") SUndefined SUndefined
                 SUndefined None (VStr "s3cr3t") None)
              eq_refl ltac:(discriminate)) as (Hns & _ & Hname).
  split; [exact Hns | exact Hname].
Defined.

(** What the key parser makes of a name that carries both prefixes. *)
Lemma strip_composed (this : Secrets) (name : string) :
  strip this
    (ToString (namespace this) ++ delimiter this ++
     ToString (env this) ++ delimiter this ++ name) = name.
Proof.
  unfold strip.
  rewrite <- (append_assoc (ToString (namespace this))), replace_at_start.
  now rewrite <- append_assoc, replace_at_start.
Qed.

Lemma createSecret_Name_prefixed (this : Secrets) (create : CreateOptions) :
  struthy (namespace this) = true ->
  struthy (env this) = true ->
  CreateSecretCommand.Name (createSecret this create) =
    SStr (ToString (namespace this) ++ delimiter this ++
          ToString (env this) ++ delimiter this ++
          ToString (joined_name this (c_name create))).
Proof.
  intros Hns Henv. unfold createSecret. cbn.
  unfold with_namespace, with_env. now rewrite Hns, Henv.
Qed.

(** When the name is handed over as an array of segments, none of which
    contains the one-character delimiter, the path read back is that
    array. *)
Lemma written_segments_read_back
  (c : ascii) (e ns r : sval) (k : nat) (segments : list string)
  (create : CreateOptions) :
  let this := mkSecrets (String c "") e r ns k in
  struthy ns = true ->
  struthy e = true ->
  c_name create = SArr segments ->
  segments <> [] ->
  Forall (fun x => JsString.includes (String c "") x = false) segments ->
  path_of this (ToString (CreateSecretCommand.Name (createSecret this create)))
  = segments.
Proof.
  intros this Hns Henv Hname Hne Hall. unfold path_of.
  rewrite createSecret_Name_prefixed by assumption.
  cbn [ToString]. rewrite strip_composed, Hname. cbn.
  now apply split_join.
Qed.

(** C2, at the input where it fails: an instance built with [all] holds
    [null] as its environment, and the key parser takes the word
    ["null"] and the delimiter out of a record's name. The name
    ["acme/null/key"], split as it is after the namespace, has the path
    [["null"; "key"]]; the parser gives [["key"]], and the tree holds the
    value at [key]. *)
Theorem retrieve_all_strips_null `{JSON} (penv : ProcessEnv) (text : string) :
  let this :=
    constructor penv
      (mkOptions SUndefined SUndefined SUndefined (SStr "acme") true) in
  env this = SNull /\
  JsString.split (delimiter this) "null/key" = ["null"; "key"] /\
  path_of this "acme/null/key" = ["key"] /\
  _parseSecrets this [mkSecretValue "acme/null/key" (Some text)]
  = Returned (nest ["key"] (decoded_value (mkSecretValue "acme/null/key" (Some text)))).
Proof.
  intros this. repeat split.
  unfold _parseSecrets, decoded_value. cbn.
  unfold decode_into, call_JSON_parse. cbn.
  destruct (JSON_parse text); reflexivity.
Qed.

(** ** The fetcher and its retry branch *)

(** The limit the retry test reads is not there to be read. *)
Lemma this_MAX_RETRY_ATTEMPTS (this : Secrets) :
  this_number this "MAX_RETRY_ATTEMPTS" = None /\
  static_number "MAX_RETRY_ATTEMPTS" = Some 3.
Proof. split; reflexivity. Qed.

Lemma getSecret_unfold (store : list response) (this : Secrets)
  (options : GetOptions) :
  getSecret store this options =
  let command := request options in
  match store with
  | [] => (this, [Sent command], Pending)
  | Resolves secret :: _ =>
      if raw options then (this, [Sent command], FulfilledRaw secret)
      else (this, [Sent command], Fulfilled (SecretString secret))
  | Rejects err :: store' =>
      if struthy (errorMessage err)
         && strict_equal (errorMessage err) (SStr "Rate exceeded")
         && number_le (this_number this "retryAttempts")
                      (this_number this "MAX_RETRY_ATTEMPTS")
      then
        let this :=
          {| delimiter := delimiter this; env := env this;
             region := region this; namespace := namespace this;
             retryAttempts := S (retryAttempts this) |} in
        let diagnostic :=
          ConsoleError (this_number this "retryAttempts")
                       (this_number this "MAX_RETRY_ATTEMPTS") in
        let '(this, events, result) := getSecret store' this options in
        (this, Sent command :: diagnostic :: SetTimeout 1050 :: events, result)
      else (this, [Sent command], Rejected err)
  end.
Proof. destruct store; reflexivity. Qed.

(** Whatever the store rejects with is what the call rejects with, at the
    first answer and with the instance as it was. *)
Lemma getSecret_rejection (store : list response) (this : Secrets)
  (options : GetOptions) (err : StoreError) :
  getSecret (Rejects err :: store) this options
  = (this, [Sent (request options)], Rejected err).
Proof.
  rewrite getSecret_unfold. cbn -[getSecret request].
  now rewrite andb_false_r.
Qed.

(** No call changes the instance. *)
Lemma getSecret_instance (store : list response) (this : Secrets)
  (options : GetOptions) :
  fst (fst (getSecret store this options)) = this.
Proof.
  destruct store as [|[secret|err] store].
  - reflexivity.
  - cbn. now destruct (raw options).
  - now rewrite getSecret_rejection.
Qed.

Lemma getSecret_reading_None (store : list response) (this : Secrets)
  (options : GetOptions) :
  getSecret_reading None store this options = getSecret store this options.
Proof.
  revert this. induction store as [|[secret|err] store IH]; intros this;
    try reflexivity.
  rewrite getSecret_rejection. cbn -[request]. now rewrite andb_false_r.
Qed.

(** Were the limit there to be read, the test [<=] would let a fourth
    retry through: four rate-limit errors and then the secret end in the
    secret, with the counter at four. *)
Lemma limit_read_allows_one_more
  (this : Secrets) (options : GetOptions) (code : string) (secret : SecretValue) :
  retryAttempts this = 0 -> raw options = false ->
  let rate_exceeded := mkStoreError (SStr "Rate exceeded") code in
  let run :=
    getSecret_reading (Some MAX_RETRY_ATTEMPTS)
      (repeat (Rejects rate_exceeded) (S MAX_RETRY_ATTEMPTS) ++ [Resolves secret])
      this options in
  snd run = Fulfilled (SecretString secret) /\
  retryAttempts (fst (fst run)) = S MAX_RETRY_ATTEMPTS.
Proof.
  intros Hzero Hraw rate_exceeded run. unfold run. cbn -[request].
  rewrite Hzero. cbn -[request]. now rewrite Hraw.
Qed.

(** Every call leaves the counter where it was or higher. The proof goes
    through both branches of the retry test. *)
Lemma getSecret_counter (store : list response) (this : Secrets)
  (options : GetOptions) :
  retryAttempts this
  <= retryAttempts (fst (fst (getSecret store this options))).
Proof.
  revert this. induction store as [|answer store IH]; intros this.
  - cbn. lia.
  - rewrite getSecret_unfold. cbv zeta. destruct answer as [secret|err].
    + destruct (raw options); cbn; lia.
    + destruct (_ && _ && number_le _ _).
      * match goal with
        | |- context [getSecret store ?next options] =>
            specialize (IH next); destruct (getSecret store next options)
              as [[this' events] result]
        end.
        cbn in *. lia.
      * cbn. lia.
Qed.

(** The events of a call: every command sent is the one built from the
    options of the call, and the first event is such a send. *)
Lemma getSecret_events (store : list response) (this : Secrets)
  (options : GetOptions) :
  let events := snd (fst (getSecret store this options)) in
  (exists rest, events = Sent (request options) :: rest) /\
  (forall command, In (Sent command) events -> command = request options).
Proof.
  revert this. induction store as [|answer store IH]; intros this.
  - cbn. split; [now eexists|]. intros command [[= <-]|[]]; reflexivity.
  - rewrite getSecret_unfold. cbv zeta. destruct answer as [secret|err].
    + destruct (raw options); cbn; (split; [now eexists|]);
        intros command [[= <-]|[]]; reflexivity.
    + destruct (_ && _ && number_le _ _).
      * match goal with
        | |- context [getSecret store ?next options] =>
            specialize (IH next); destruct (getSecret store next options)
              as [[this' events] result]
        end.
        cbn in *. destruct IH as [_ IH]. split; [now eexists|].
        intros command [[= <-]|[Hin|[Hin|Hin]]]; try discriminate; auto.
      * cbn. split; [now eexists|]. intros command [[= <-]|[]]; reflexivity.
Qed.

(** C1, at the input where it fails: on an instance fresh from the
    constructor, with the store answering "Rate exceeded" three times and
    then with the secret, the call rejects with the first of the three
    errors. Nothing is retried: one command is sent and the counter stays
    at zero. *)
Theorem rate_limit_not_retried
  (penv : ProcessEnv) (built : Options) (options : GetOptions)
  (code : string) (secret : SecretValue) :
  let this := constructor penv built in
  let rate_exceeded := mkStoreError (SStr "Rate exceeded") code in
  getSecret
    (repeat (Rejects rate_exceeded) MAX_RETRY_ATTEMPTS ++ [Resolves secret])
    this options
  = (this, [Sent (request options)], Rejected rate_exceeded).
Proof. intros this rate_exceeded. apply getSecret_rejection. Qed.

(** C7: every command a call sends is built from the options of the
    call, and it carries at most one version qualifier: the version as
    [VersionId] whenever the version is truthy, the stage as
    [VersionStage] only when the version is not. *)
Theorem at_most_one_version_qualifier
  (store : list response) (this : Secrets) (options : GetOptions) :
  let events := snd (fst (getSecret store this options)) in
  let command := request options in
  (exists rest, events = Sent command :: rest) /\
  (forall sent, In (Sent sent) events -> sent = command) /\
  GetSecretValueCommand.SecretId command = id options /\
  (GetSecretValueCommand.VersionId command = None \/
   GetSecretValueCommand.VersionStage command = None) /\
  (struthy (version options) = true ->
   GetSecretValueCommand.VersionId command = Some (version options) /\
   GetSecretValueCommand.VersionStage command = None) /\
  (forall label, GetSecretValueCommand.VersionStage command = Some label ->
   struthy (version options) = false /\ label = stage options /\
   struthy (stage options) = true).
Proof.
  intros events command.
  destruct (getSecret_events store this options) as [Hfirst Hall].
  split; [exact Hfirst|]. split; [exact Hall|].
  unfold command, request.
  destruct (struthy (version options)) eqn:Hv;
    [|destruct (struthy (stage options)) eqn:Hs]; cbn;
    repeat split; auto; try discriminate; intros; simplify_eq; auto.
Qed.

(** C8: the counter is zero on an instance fresh from the constructor,
    and no series of [getSecret] calls, whatever the store answers in
    them, leaves it lower than it was. *)
Theorem retry_counter_never_decreases
  (penv : ProcessEnv) (built : Options) (this : Secrets)
  (calls : list (list response * GetOptions)) :
  retryAttempts (constructor penv built) = 0 /\
  retryAttempts this <= retryAttempts (after_calls this calls).
Proof.
  split; [reflexivity|].
  revert this. induction calls as [|[store options] calls IH]; intros this.
  - cbn. lia.
  - cbn [after_calls]. etransitivity; [|apply IH]. apply getSecret_counter.
Qed.

(** ** The tree builder *)

Section TreeFacts.

Local Open Scope list_scope.

Implicit Types (cache v w x : value) (parts path p q : list string).
Implicit Types (key k : string) (m : gmap string value).

Lemma bind_Returned {A : Type} (o : outcome A) : (a ← o; Returned a) = o.
Proof. now destruct o. Qed.

Lemma pop_snoc parts key : pop (parts ++ [key]) = (parts, key).
Proof. unfold pop. now rewrite rev_unit, rev_involutive. Qed.

Lemma snoc_of_nonempty path : path <> [] -> exists parts key, path = parts ++ [key].
Proof.
  intros Hne. destruct (rev path) as [|key before] eqn:Hrev.
  - apply (f_equal (@rev string)) in Hrev. rewrite rev_involutive in Hrev.
    contradiction.
  - exists (rev before), key.
    apply (f_equal (@rev string)) in Hrev. now rewrite rev_involutive in Hrev.
Qed.

Lemma plain_not_proto k : plain k -> k <> "__proto__".
Proof. intros Hk ->. discriminate Hk. Qed.

Lemma eqb_proto k : k <> "__proto__" -> String.eqb k "__proto__" = false.
Proof. now intros Hk; apply String.eqb_neq. Qed.

Lemma nest_app p q x : nest (p ++ q) x = nest p (nest q x).
Proof. induction p as [|k p IH]; [reflexivity|]. cbn. now rewrite IH. Qed.

(** An object stays what it is under [|| {}]. *)
Lemma or_empty_nest p m : or_empty (nest p (VObj m)) = nest p (VObj m).
Proof. now destruct p. Qed.

(** The first item to reach an empty object makes the tree that holds its
    value at its path. *)
Lemma assign_fresh parts key v :
  Forall plain parts -> key <> "__proto__" ->
  assign (VObj ∅) parts key v = Returned (nest (parts ++ [key]) v).
Proof.
  intros Hparts Hkey. induction Hparts as [|k parts Hk _ IH].
  - cbn. rewrite lookup_empty, eqb_proto by assumption.
    now rewrite insert_empty.
  - cbn [assign enter]. rewrite lookup_empty. unfold plain in Hk. rewrite Hk.
    cbn. rewrite IH. cbn.
    now rewrite insert_empty.
Qed.

(** The walk through nodes that are there: what happens below the node
    at [p] stays below it. *)
Lemma assign_below p m parts key v :
  assign (nest p (VObj m)) (p ++ parts) key v
  = (sub ← assign (VObj m) parts key v; Returned (nest p sub)).
Proof.
  induction p as [|k p IH]; [now rewrite bind_Returned|].
  cbn [nest app assign enter]. rewrite lookup_singleton_eq, or_empty_nest.
  cbn. rewrite IH. destruct (assign (VObj m) parts key v); cbn; try reflexivity.
  now rewrite insert_singleton_eq.
Qed.

Lemma put_fresh path v :
  path <> [] -> Forall plain path ->
  put (VObj ∅) path v = Returned (nest path v).
Proof.
  intros Hne Hplain. destruct (snoc_of_nonempty path Hne) as (parts & key & ->).
  unfold put. rewrite pop_snoc. apply Forall_app in Hplain as [Hparts Hkey].
  apply assign_fresh; [assumption|].
  apply plain_not_proto. now inversion Hkey.
Qed.

(** The shorter path after the longer one. *)
Lemma put_over p q v w :
  p <> [] -> q <> [] -> put (nest (p ++ q) w) p v = Returned (nest p v).
Proof.
  intros Hp Hq. destruct (snoc_of_nonempty p Hp) as (parts & key & ->).
  unfold put. rewrite pop_snoc, <- app_assoc.
  rewrite nest_app. cbn [app nest].
  rewrite <- (app_nil_r parts) at 2. rewrite assign_below. cbn.
  rewrite lookup_singleton_eq. cbn. rewrite insert_singleton_eq.
  now rewrite nest_app.
Qed.

(** The longer path after the shorter one: the walk goes on in what the
    node holds, or in a new object when what it holds is falsy. *)
Lemma put_under p q v w :
  p <> [] -> q <> [] ->
  put (nest p v) (p ++ q) w
  = (sub ← put (or_empty v) q w; Returned (nest p sub)).
Proof.
  intros Hp Hq. destruct (snoc_of_nonempty p Hp) as (parts & key & ->).
  destruct (snoc_of_nonempty q Hq) as (qparts & qkey & ->).
  unfold put. rewrite pop_snoc.
  replace ((parts ++ [key]) ++ qparts ++ [qkey])
    with ((parts ++ key :: qparts) ++ [qkey])
    by (now rewrite <- !app_assoc).
  rewrite pop_snoc, nest_app. cbn [nest].
  rewrite assign_below. cbn [assign enter]. rewrite lookup_singleton_eq. cbn.
  destruct (assign (or_empty v) qparts qkey w); cbn; try reflexivity.
  now rewrite insert_singleton_eq, nest_app.
Qed.

(** Nothing can be put below a primitive. *)
Lemma put_primitive v q w :
  primitive v = true -> q <> [] -> Forall plain q ->
  put v q w = Thrown TypeError.
Proof.
  intros Hv Hq Hplain. destruct (snoc_of_nonempty q Hq) as (parts & key & ->).
  unfold put. rewrite pop_snoc. apply Forall_app in Hplain as [Hparts Hkey].
  destruct parts as [|k parts].
  - apply Forall_inv, plain_not_proto, eqb_proto in Hkey.
    destruct v; try discriminate; cbn; now rewrite Hkey.
  - apply Forall_inv, plain_not_proto, eqb_proto in Hparts.
    destruct v; try discriminate; cbn; now rewrite Hparts.
Qed.



End TreeFacts.

(** ** Paths that share a prefix *)

Section Collisions.

Local Open Scope list_scope.


(** C3 as it is stated fails here: with the string ["x"] at [a] processed
    before a value at [a/b], the second loop builds no tree. It throws,
    as the walk for [a/b] finds the string at [a] and cannot assign a
    property to it. *)
Lemma shorter_path_first_throws :
  let config := [("a", VStr "x"); ("a/b", VStr "y")] in
  for_in config = ["a"; "a/b"] /\
  second_loop "/" config (for_in config) (VObj ∅) = Thrown TypeError.
Proof. split; vm_compute; reflexivity. Qed.

(** An object at the shorter path is kept, and takes the later value in. *)
Example object_at_prefix_kept (one two : value) :
  let config := [("a", VObj {[ "x" := one ]}); ("a/b", two)] in
  second_loop "/" config (for_in config) (VObj ∅)
  = Returned (VObj {[ "a" := VObj {[ "x" := one; "b" := two ]} ]}).
Proof. vm_compute. reflexivity. Qed.

End Collisions.

(** ** Decoding *)

Lemma split_scan_nonempty (sep : string) (pending : nat) (cur s : string) :
  JsString.split_scan sep pending cur s <> [].
Proof.
  revert pending cur. induction s as [|c s IH]; intros pending cur.
  - now destruct pending.
  - destruct pending as [|k]; cbn [JsString.split_scan]; [|apply IH].
    destruct (String.prefix sep (String c s)); [discriminate | apply IH].
Qed.

(** A non-empty delimiter never splits a name into no segment at all. *)
Lemma split_nonempty (sep s : string) : sep <> "" -> JsString.split sep s <> [].
Proof.
  intros Hsep. destruct sep; [contradiction|]. apply split_scan_nonempty.
Qed.

Lemma config_update_entries (name : string) (v : value) (config config' : config_t) :
  config_update name v config = Some config' ->
  forall k x, In (k, x) config' -> In (k, x) config \/ (k = name /\ x = v).
Proof.
  revert config'. induction config as [|[k0 w] rest IH]; intros config'; cbn.
  - discriminate.
  - destruct (String.eqb_spec k0 name) as [->|Hne].
    + intros [= <-] k x [[= <- <-]|Hin]; [now right | left; now right].
    + destruct (config_update name v rest) as [rest'|]; [|discriminate].
      intros [= <-] k x [Heq|Hin]; [left; now left|].
      destruct (IH rest' eq_refl k x Hin) as [Hold|Hnew]; [left; now right | now right].
Qed.

Lemma config_set_entries (name : string) (v : value) (config config' : config_t) :
  config_set name v config = Returned config' ->
  forall k x, In (k, x) config' -> In (k, x) config \/ (k = name /\ x = v).
Proof.
  unfold config_set. destruct (String.eqb name "__proto__"); [discriminate|].
  destruct (config_update name v config) as [updated|] eqn:Hupd.
  - intros [= <-]. now apply config_update_entries.
  - intros [= <-] k x Hin. apply in_app_or in Hin as [Hin|[[= <- <-]|[]]]; auto.
Qed.

Lemma config_set_throws (name : string) (v : value) (config : config_t) (e : exn) :
  config_set name v config <> Thrown e.
Proof. unfold config_set. repeat case_match; discriminate. Qed.

Lemma for_in_single (name : string) (v : value) : for_in [(name, v)] = [name].
Proof. unfold for_in. cbn. now destruct (array_index name). Qed.

Section Decoding.

Context `{JSON}.

(** Lines 241-245 keep the decoded value, or the raw one when the text
    does not parse. *)
Lemma decode_into_value (config : config_t) (name : string) (secret : SecretValue) :
  decode_into config name secret = config_set name (decoded_value secret) config.
Proof.
  unfold decode_into, decoded_value, call_JSON_parse.
  destruct (JSON_parse _) as [v|]; cbn; [|reflexivity].
  destruct (config_set name v config) eqn:Hset; try reflexivity.
  now apply config_set_throws in Hset.
Qed.

Lemma first_loop_entries (this : Secrets) (list : list SecretValue)
  (config config' : config_t) :
  first_loop this list config = Returned config' ->
  forall k x, In (k, x) config' ->
    In (k, x) config \/
    exists secret, In secret list /\ k = strip this (Name secret)
                   /\ x = decoded_value secret.
Proof.
  revert config. induction list as [|secret rest IH]; intros config; cbn.
  - intros [= <-]. auto.
  - rewrite decode_into_value.
    destruct (config_set _ _ config) as [next| |] eqn:Hset; cbn; try discriminate.
    intros Hrest k x Hin.
    destruct (IH next Hrest k x Hin) as [Hnext|(s & Hs & Hk & Hx)].
    + destruct (config_set_entries _ _ _ _ Hset k x Hnext) as [Hold|[-> ->]];
        [now left | right; exists secret; auto].
    + right. exists s. auto.
Qed.


(** The two scenarios of the specification, for a [JSON.parse] that
    reads ["5432"] as the number and rejects the two plain words. *)
Example scenario_password :
  JSON_parse "s3cr3t" = None ->
  _parseSecrets (mkSecrets "/" (SStr "prod") (SStr "us-west-2") (SStr "acme") 0)
    [mkSecretValue "acme/prod/db/password" (Some "s3cr3t")]
  = Returned (VObj {[ "db" := VObj {[ "password" := VStr "s3cr3t" ]} ]}).
Proof.
  intros Hparse. unfold _parseSecrets. cbn.
  unfold decode_into, call_JSON_parse. cbn. rewrite Hparse. reflexivity.
Qed.

Example scenario_host_port :
  JSON_parse "localhost" = None ->
  JSON_parse "5432" = Some (VNum (number_of_Z 5432)) ->
  _parseSecrets (mkSecrets "/" (SStr "prod") (SStr "us-west-2") (SStr "acme") 0)
    [mkSecretValue "acme/prod/db/host" (Some "localhost");
     mkSecretValue "acme/prod/db/port" (Some "5432")]
  = Returned
      (VObj {[ "db" := VObj {[ "host" := VStr "localhost";
                               "port" := VNum (number_of_Z 5432) ]} ]}).
Proof.
  intros Hhost Hport. unfold _parseSecrets. cbn.
  unfold decode_into, call_JSON_parse. cbn. rewrite Hhost. cbn.
  rewrite Hport. vm_compute. reflexivity.
Qed.

End Decoding.

(** * Further properties *)

(** ** The constructor's defaults *)

(** X1: a delimiter that is missing or empty gives the slash, and whatever
    string is given otherwise is kept: the delimiter of an instance is
    never the empty string. The region falls back from the option to
    [AWS_REGION] and to the default, and is never falsy. *)
Theorem constructor_defaults (penv : ProcessEnv) (options : Options) :
  (forall l, o_delimiter options <> SArr l) ->
  let this := constructor penv options in
  delimiter this <> "" /\
  (struthy (o_delimiter options) = false -> delimiter this = "/") /\
  (forall d, o_delimiter options = SStr d -> d <> "" -> delimiter this = d) /\
  struthy (region this) = true /\
  (struthy (o_region options) = true -> region this = o_region options) /\
  (struthy (o_region options) = false -> struthy (AWS_REGION penv) = false ->
   region this = SStr "us-west-2").
Proof.
  intros Harr this. unfold this, constructor, delimiter_of, sor. cbn.
  repeat split.
  - destruct (o_delimiter options) as [| |d|l]; cbn; try discriminate.
    + destruct (String.eqb_spec d ""); cbn; [discriminate | assumption].
    + now destruct (Harr l).
  - now intros ->.
  - intros d -> Hd. cbn. now rewrite (proj2 (String.eqb_neq _ _) Hd).
  - destruct (struthy (o_region options)) eqn:Hr; [assumption|].
    now destruct (struthy (AWS_REGION penv)) eqn:Ha.
  - now intros ->.
  - now intros -> ->.
Qed.

Lemma constructor_defaults_witness :
  let this := constructor (mkProcessEnv SUndefined (SStr "eu-west-1"))
                (mkOptions (SStr "") SUndefined SUndefined SUndefined false) in
  delimiter this = "/" /\ region this = SStr "eu-west-1".
Proof.
  intros this.
  destruct (constructor_defaults (mkProcessEnv SUndefined (SStr "eu-west-1"))
              (mkOptions (SStr "") SUndefined SUndefined SUndefined false)
              ltac:(discriminate)) as (_ & Hslash & _).
  split; [exact (Hslash eq_refl) | reflexivity].
Defined.

(** X2: a namespace that is missing, the empty string or the empty array is
    not stored, and [createSecret] then puts no namespace in front of
    the name: not even the bare delimiter. *)
Theorem empty_namespace_not_stored
  (penv : ProcessEnv) (options : Options) (create : CreateOptions) :
  o_namespace options = SUndefined \/ o_namespace options = SNull \/
  o_namespace options = SStr "" \/ o_namespace options = SArr [] ->
  let this := constructor penv options in
  namespace this = SUndefined /\
  CreateSecretCommand.Name (createSecret this create)
  = with_env this (joined_name this (c_name create)).
Proof.
  intros Hns this.
  assert (Hthis : namespace this = SUndefined).
  { unfold this, constructor. cbn.
    destruct Hns as [->|[->|[->| ->]]]; reflexivity. }
  split; [exact Hthis|].
  unfold createSecret. cbn. unfold with_namespace. now rewrite Hthis.
Qed.

Lemma empty_namespace_not_stored_witness :
  CreateSecretCommand.Name
    (createSecret
       (constructor (mkProcessEnv (SStr "prod") SUndefined)
          (mkOptions SUndefined SUndefined SUndefined (SArr []) false))
       (mkCreateOptions (SStr "db/password") SUndefined SUndefined SUndefined
          None (VStr "s3cr3t") None))
  = SStr "prod/db/password".
Proof.
  exact (proj2 (empty_namespace_not_stored
                  (mkProcessEnv (SStr "prod") SUndefined)
                  (mkOptions SUndefined SUndefined SUndefined (SArr []) false)
                  (mkCreateOptions (SStr "db/password") SUndefined SUndefined
                     SUndefined None (VStr "s3cr3t") None)
                  (or_intror (or_intror (or_intror eq_refl))))).
Defined.

(** ** The name [createSecret] sends *)


(** X4: an instance built with [all] writes no environment in front of the
    name, whatever [options.env] and [NODE_ENV] are. *)
Theorem retrieve_all_writes_no_environment
  (penv : ProcessEnv) (options : Options) (create : CreateOptions) :
  o_all options = true ->
  let this := constructor penv options in
  CreateSecretCommand.Name (createSecret this create)
  = with_namespace this (joined_name this (c_name create)).
Proof.
  intros Hall this. unfold createSecret. cbn. unfold with_env.
  unfold this at 2. now rewrite constructor_all.
Qed.

Lemma retrieve_all_writes_no_environment_witness :
  CreateSecretCommand.Name
    (createSecret
       (constructor (mkProcessEnv (SStr "prod") SUndefined)
          (mkOptions SUndefined (SStr "staging") SUndefined (SStr "acme") true))
       (mkCreateOptions (SStr "db/password") SUndefined SUndefined SUndefined
          None (VStr "s3cr3t") None))
  = SStr "acme/db/password".
Proof.
  exact (retrieve_all_writes_no_environment
           (mkProcessEnv (SStr "prod") SUndefined)
           (mkOptions SUndefined (SStr "staging") SUndefined (SStr "acme") true)
           (mkCreateOptions (SStr "db/password") SUndefined SUndefined
              SUndefined None (VStr "s3cr3t") None)
           eq_refl).
Defined.

(** X5: [createSecret] writes the composed name back into the options it was
    given. Handing the same options to a second call puts both prefixes
    on once more, and the key parser, which takes one of each off, reads
    the second name back with the namespace and the environment as the
    leading part of the path. *)
Theorem createSecret_reused_options (this : Secrets) (create : CreateOptions) :
  struthy (namespace this) = true ->
  struthy (env this) = true ->
  let both := ToString (namespace this) ++ delimiter this ++
              ToString (env this) ++ delimiter this in
  let name := ToString (joined_name this (c_name create)) in
  let again := createSecret this (createSecret_options this create) in
  CreateSecretCommand.Name again = SStr (both ++ both ++ name) /\
  path_of this (ToString (CreateSecretCommand.Name again))
  = JsString.split (delimiter this) (both ++ name).
Proof.
  intros Hns Henv both name again.
  assert (Hagain : CreateSecretCommand.Name again = SStr (both ++ both ++ name)).
  { unfold again. rewrite createSecret_Name_prefixed by assumption.
    unfold createSecret_options. cbn [c_name].
    rewrite createSecret_Name_prefixed by assumption. cbn [joined_name ToString].
    unfold both, name. now rewrite !append_assoc. }
  split; [exact Hagain|].
  rewrite Hagain. cbn [ToString]. unfold path_of. f_equal.
  unfold both at 1. rewrite !append_assoc. apply strip_composed.
Qed.

Lemma createSecret_reused_options_witness :
  let this := mkSecrets "/" (SStr "prod") (SStr "us-west-2") (SStr "acme") 0 in
  let create :=
    mkCreateOptions (SStr "db/password") SUndefined SUndefined SUndefined
      None (VStr "s3cr3t") None in
  CreateSecretCommand.Name (createSecret this (createSecret_options this create))
  = SStr "acme/prod/acme/prod/db/password" /\
  path_of this "acme/prod/acme/prod/db/password"
  = ["acme"; "prod"; "db"; "password"].
Proof.
  intros this create.
  exact (createSecret_reused_options this create eq_refl eq_refl).
Defined.

(** ** The key parser on names without the prefixes *)

(** X6: a name in which neither prefix occurs is left as it is, and its path
    is the name split at the delimiter: a missing prefix is no error. *)
Theorem strip_without_prefixes (this : Secrets) (name : string) :
  JsString.includes (ToString (namespace this) ++ delimiter this) name = false ->
  JsString.includes (ToString (env this) ++ delimiter this) name = false ->
  strip this name = name /\
  path_of this name = JsString.split (delimiter this) name.
Proof.
  intros Hns Henv.
  assert (Hstrip : strip this name = name).
  { unfold strip. now rewrite (replace_absent _ _ Hns), (replace_absent _ _ Henv). }
  split; [exact Hstrip|]. unfold path_of. now rewrite Hstrip.
Qed.

Lemma strip_without_prefixes_witness :
  path_of (mkSecrets "/" (SStr "prod") (SStr "us-west-2") (SStr "acme") 0)
    "other/staging/db/password"
  = ["other"; "staging"; "db"; "password"].
Proof.
  exact (proj2 (strip_without_prefixes
                  (mkSecrets "/" (SStr "prod") (SStr "us-west-2") (SStr "acme") 0)
                  "other/staging/db/password" eq_refl eq_refl)).
Defined.

(** X7: writing and reading back on an instance that lacks the namespace,
    the environment or both: [createSecret] leaves the missing prefix
    out, the key parser still looks for its rendering (["undefined"],
    ["null"] or the empty string, followed by the delimiter), and the
    path read back is the path of the unprefixed name whenever that
    rendering does not occur in what it is looked for in. *)
Theorem written_name_read_back_partial (this : Secrets) (create : CreateOptions) :
  let d := delimiter this in
  let name := ToString (joined_name this (c_name create)) in
  let written := ToString (CreateSecretCommand.Name (createSecret this create)) in
  (struthy (namespace this) = false ->
   JsString.includes (ToString (namespace this) ++ d) written = false) ->
  (struthy (env this) = false ->
   JsString.includes (ToString (env this) ++ d) name = false) ->
  path_of this written = JsString.split d name.
Proof.
  intros d name written Hns Henv. unfold path_of. f_equal.
  assert (Hwritten :
    written = (if struthy (namespace this) then ToString (namespace this) ++ d else "")
              ++ (if struthy (env this) then ToString (env this) ++ d else "")
              ++ name).
  { unfold written, createSecret. cbn. unfold with_namespace, with_env.
    destruct (struthy (namespace this)), (struthy (env this)); cbn;
      now rewrite ?append_assoc. }
  unfold strip. fold d.
  assert (Hfirst :
    JsString.replace (ToString (namespace this) ++ d) written
    = (if struthy (env this) then ToString (env this) ++ d else "") ++ name).
  { destruct (struthy (namespace this)) eqn:Hn.
    - rewrite Hwritten. apply replace_at_start.
    - rewrite (replace_absent _ _ (Hns eq_refl)). exact Hwritten. }
  rewrite Hfirst. destruct (struthy (env this)) eqn:He.
  - apply replace_at_start.
  - exact (replace_absent _ _ (Henv eq_refl)).
Qed.

Lemma written_name_read_back_partial_witness :
  let this := constructor (mkProcessEnv SUndefined SUndefined)
                (mkOptions SUndefined SUndefined SUndefined (SStr "acme") true) in
  let create :=
    mkCreateOptions (SArr ["db"; "password"]) SUndefined SUndefined SUndefined
      None (VStr "s3cr3t") None in
  CreateSecretCommand.Name (createSecret this create) = SStr "acme/db/password" /\
  path_of this "acme/db/password" = ["db"; "password"].
Proof.
  intros this create. split; [reflexivity|].
  exact (written_name_read_back_partial this create
           (fun H => ltac:(discriminate H)) (fun _ => eq_refl)).
Defined.

Lemma written_segments_read_back_witness :
  path_of (mkSecrets "/" (SStr "prod") (SStr "us-west-2") (SArr ["acme"; "pay"]) 0)
    "acme,pay/prod/db/password"
  = ["db"; "password"].
Proof.
  refine (written_segments_read_back "/"%char (SStr "prod") (SArr ["acme"; "pay"])
            (SStr "us-west-2") 0 ["db"; "password"]
            (mkCreateOptions (SArr ["db"; "password"]) SUndefined SUndefined
               SUndefined None (VStr "s3cr3t") None)
            eq_refl eq_refl eq_refl _ _).
  - discriminate.
  - repeat constructor.
Defined.

(** ** One request per call *)

(** X9: a call sends one command and makes nothing of what the store would
    answer after its first answer: that answer alone settles the call,
    a rejection of any kind is passed on as it is, no diagnostic is
    written and no timer is set, and the instance is left as it was. *)
Theorem getSecret_single_request
  (store : list response) (this : Secrets) (options : GetOptions) :
  getSecret store this options =
  (this, [Sent (request options)],
   match store with
   | [] => Pending
   | Resolves secret :: _ =>
       if raw options then FulfilledRaw secret else Fulfilled (SecretString secret)
   | Rejects err :: _ => Rejected err
   end).
Proof.
  destruct store as [|[secret|err] store].
  - reflexivity.
  - cbn -[request]. now destruct (raw options).
  - apply getSecret_rejection.
Qed.

(** X10: no series of calls changes the instance: the counter of an instance
    fresh from the constructor stays at zero for good. *)
Theorem instance_unchanged_by_calls
  (this : Secrets) (calls : list (list response * GetOptions)) :
  after_calls this calls = this.
Proof.
  induction calls as [|[store options] calls IH]; [reflexivity|].
  cbn [after_calls]. now rewrite getSecret_instance.
Qed.

(** ** Reading the tree after a put *)

Section TreeReads.

Local Open Scope list_scope.

Implicit Types (t a b cache v w x : value) (path p q r s rest : list string).
Implicit Types (key k : string) (m : gmap string value).

Lemma pop_cons k path :
  path <> [] -> pop (k :: path) = (k :: (pop path).1, (pop path).2).
Proof.
  intros Hne. destruct (snoc_of_nonempty path Hne) as (parts & key & ->).
  rewrite pop_snoc. change (k :: parts ++ [key]) with ((k :: parts) ++ [key]).
  now rewrite pop_snoc.
Qed.

(** The walk of [put], one segment at a time. *)
Lemma put_step t k rest v :
  rest <> [] ->
  put t (k :: rest) v
  = (next ← enter t k;
     next' ← put next rest v;
     match t with
     | VObj m => Returned (VObj (<[k := next']> m))
     | _ => Unmodelled
     end).
Proof.
  intros Hne. unfold put. rewrite pop_cons by assumption.
  now destruct (pop rest) as [parts key].
Qed.

Lemma store_returned t k v t' :
  store t k v = Returned t' -> exists m, t = VObj m /\ t' = VObj (<[k := v]> m).
Proof.
  destruct t as [| | | | | |m]; cbn; repeat case_match; intros Heq;
    simplify_eq; now exists m.
Qed.

Lemma enter_returned t k next :
  enter t k = Returned next ->
  exists m, t = VObj m /\ next = or_empty (default VUndefined (m !! k)) /\
            (m !! k = None -> inherited k = false).
Proof.
  destruct t as [| | | | | |m]; cbn [enter];
    try (repeat case_match; intros Heq; discriminate Heq).
  destruct (m !! k) as [x|] eqn:Hk.
  - intros [= <-]. exists m. rewrite Hk. repeat split. intros Hx. discriminate Hx.
  - destruct (inherited k) eqn:Hin; [intros Hx; discriminate Hx|].
    intros [= <-]. exists m. rewrite Hk. repeat split.
Qed.

Lemma enter_object m k :
  (m !! k = None -> inherited k = false) ->
  enter (VObj m) k = Returned (or_empty (default VUndefined (m !! k))).
Proof.
  intros Hk. cbn [enter]. destruct (m !! k) as [x|]; [reflexivity|].
  now rewrite Hk.
Qed.

Lemma put_step_returned t k rest v t' :
  rest <> [] ->
  put t (k :: rest) v = Returned t' ->
  exists m next',
    t = VObj m /\
    (m !! k = None -> inherited k = false) /\
    put (or_empty (default VUndefined (m !! k))) rest v = Returned next' /\
    t' = VObj (<[k := next']> m).
Proof.
  intros Hne. rewrite put_step by assumption.
  destruct (enter t k) as [next| |] eqn:Henter; cbn;
    try (intros Heq; discriminate Heq).
  apply enter_returned in Henter as (m & -> & -> & Hk).
  destruct (put _ rest v) as [next'| |] eqn:Hnext; cbn;
    intros Heq; try discriminate Heq.
  injection Heq as <-. now exists m, next'.
Qed.

(** A put changes the root at the first segment of the path and nowhere
    else, and what it puts there depends on nothing but what was there. *)
Lemma put_head m k rest v t' :
  put (VObj m) (k :: rest) v = Returned t' ->
  exists y, t' = VObj (<[k := y]> m) /\
    forall m2, m2 !! k = m !! k ->
      put (VObj m2) (k :: rest) v = Returned (VObj (<[k := y]> m2)).
Proof.
  destruct rest as [|k' rest].
  - change (put (VObj m) [k] v) with (store (VObj m) k v).
    intros Hstore. exists v. split.
    + apply store_returned in Hstore as (m' & [= <-] & ->). reflexivity.
    + intros m2 Hm2. change (put (VObj m2) [k] v) with (store (VObj m2) k v).
      cbn in *. rewrite Hm2. repeat case_match; congruence.
  - intros Hput.
    apply put_step_returned in Hput as (m' & next' & [= <-] & Hk & Hnext & ->);
      [|discriminate].
    exists next'. split; [reflexivity|]. intros m2 Hm2.
    rewrite put_step, enter_object by (rewrite ?Hm2; done). cbn.
    rewrite Hm2, Hnext. reflexivity.
Qed.

Lemma put_returned_object t path v t' :
  put t path v = Returned t' -> exists m', t' = VObj m'.
Proof.
  destruct path as [|k [|k' rest]].
  - intros Hput. apply store_returned in Hput as (m & _ & ->). eauto.
  - intros Hput. apply store_returned in Hput as (m & _ & ->). eauto.
  - intros Hput. apply put_step_returned in Hput as (m & n & _ & _ & _ & ->);
      [eauto | discriminate].
Qed.

(** Below a falsy value nothing is read, as below the empty object that
    takes its place. *)
Lemma lookup_or_empty x rest :
  rest <> [] -> lookup_path (or_empty x) rest = lookup_path x rest.
Proof.
  intros Hne. unfold or_empty. destruct (truthy x) eqn:Hx; [reflexivity|].
  destruct rest as [|k rest]; [contradiction|].
  cbn. rewrite lookup_empty. now destruct x.
Qed.

Lemma lookup_default m k rest :
  rest <> [] ->
  lookup_path (default VUndefined (m !! k)) rest
  = m !! k ≫= fun x => lookup_path x rest.
Proof.
  intros Hne. destruct (m !! k); [reflexivity|].
  now destruct rest.
Qed.

Lemma put_then_lookup_aux t p v t' :
  p <> [] -> put t p v = Returned t' -> lookup_path t' p = Some v.
Proof.
  revert t t'. induction p as [|k rest IH]; intros t t' Hne Hput; [contradiction|].
  destruct rest as [|k' rest].
  - apply store_returned in Hput as (m & _ & ->).
    cbn. now rewrite lookup_insert_eq.
  - apply put_step_returned in Hput as (m & next' & _ & _ & Hnext & ->);
      [|discriminate].
    cbn [lookup_path]. rewrite lookup_insert_eq. cbn.
    now apply (IH _ _ ltac:(discriminate) Hnext).
Qed.



Lemma put_keeps_other_paths_aux t p q w t' :
  diverge p q -> put t q w = Returned t' -> lookup_path t' p = lookup_path t p.
Proof.
  intros (c & k1 & k2 & p' & q' & -> & -> & Hne).
  revert t t'. induction c as [|k c IH]; intros t t' Hput.
  - cbn [app] in *. pose proof Hput as Hobj.
    assert (Hm : exists m, t = VObj m).
    { destruct q'; [apply store_returned in Hobj as (m & -> & _)
                   |apply put_step_returned in Hobj as (m & n & -> & _);
                    [|discriminate]]; eauto. }
    destruct Hm as [m ->].
    apply put_head in Hput as (y & -> & _).
    cbn. now rewrite lookup_insert_ne.
  - cbn [app] in *.
    apply put_step_returned in Hput as (m & next' & -> & _ & Hnext & ->);
      [|now destruct c].
    cbn [lookup_path]. rewrite lookup_insert_eq. cbn.
    rewrite (IH _ _ Hnext), lookup_or_empty by (now destruct c).
    apply lookup_default. now destruct c.
Qed.





(** *** Names none of which leads through another *)

Lemma lookup_path_app t r s :
  lookup_path t (r ++ s) = lookup_path t r ≫= fun x => lookup_path x s.
Proof.
  revert t. induction r as [|k r IH]; intros t; [reflexivity|].
  cbn. destruct t as [| | | | | |m]; try reflexivity.
  destruct (m !! k) as [x|]; [apply IH | reflexivity].
Qed.

Lemma lookup_below_object t r s v :
  s <> [] -> lookup_path t (r ++ s) = Some v ->
  exists m, lookup_path t r = Some (VObj m).
Proof.
  intros Hs. rewrite lookup_path_app.
  destruct (lookup_path t r) as [x|]; [|discriminate]. cbn.
  destruct s as [|k s]; [contradiction|].
  destruct x; try discriminate. eauto.
Qed.

Lemma lookup_empty_tree r : r <> [] -> lookup_path (VObj ∅) r = None.
Proof. destruct r; [contradiction|]. intros _. cbn. now rewrite lookup_empty. Qed.

Lemma prefix_or_diverge p q : p `prefix_of` q \/ q `prefix_of` p \/ diverge p q.
Proof.
  revert q. induction p as [|a p IH]; intros q.
  - left. apply prefix_nil.
  - destruct q as [|b q]; [right; left; apply prefix_nil|].
    destruct (decide (a = b)) as [->|Hab].
    + destruct (IH q) as [Hpq|[Hqp|(c & k1 & k2 & p' & q' & -> & -> & Hk)]].
      * left. now apply prefix_cons.
      * right. left. now apply prefix_cons.
      * right. right. exists (b :: c), k1, k2, p', q'. auto.
    + right. right. exists [], a, b, p, q. auto.
Qed.

(** A put goes through when the segments are plain and every node on the
    way that is there is an object. *)
Lemma put_succeeds q w t :
  (exists m, t = VObj m) -> q <> [] -> Forall plain q ->
  (forall r s x, q = r ++ s -> r <> [] -> s <> [] ->
     lookup_path t r = Some x -> exists m, x = VObj m) ->
  exists t', put t q w = Returned t'.
Proof.
  revert t. induction q as [|k rest IH]; intros t [m ->] Hne Hplain Hway;
    [contradiction|].
  apply Forall_cons in Hplain as [Hk Hrest].
  destruct rest as [|k' rest].
  - change (put (VObj m) [k] w) with (store (VObj m) k w). cbn.
    rewrite (eqb_proto k) by now apply plain_not_proto.
    destruct (m !! k); eauto.
  - rewrite put_step by discriminate.
    rewrite enter_object by (intros _; exact Hk). cbn [mbind outcome_bind].
    destruct (m !! k) as [x|] eqn:Hx; cbn.
    + destruct (Hway [k] (k' :: rest) x eq_refl) as [mx ->]; try done.
      { cbn. now rewrite Hx. }
      destruct (IH (VObj mx)) as [t' Ht']; eauto; try done.
      { intros r s y Heq Hr Hs Hy.
        apply (Hway (k :: r) s y); try done; cbn; [now rewrite Heq | now rewrite Hx]. }
      change (or_empty (VObj mx)) with (VObj mx).
      rewrite Ht'. cbn. eauto.
    + destruct (IH (VObj ∅)) as [t' Ht']; eauto; try done.
      { intros r s y _ Hr _ Hy. now rewrite lookup_empty_tree in Hy. }
      unfold or_empty. cbn. rewrite Ht'. cbn. eauto.
Qed.

Lemma holds_empty : holds (VObj ∅) [].
Proof.
  repeat split; [eauto | intros p v Hin; now apply elem_of_nil in Hin |].
  intros r x Hr Hx. now rewrite lookup_empty_tree in Hx.
Qed.

Lemma holds_ext t P P' :
  (forall pair, pair ∈ P <-> pair ∈ P') -> holds t P -> holds t P'.
Proof.
  intros Hext (Hroot & Hread & Honly). repeat split; [assumption | |].
  - intros p v Hin. apply Hread. now apply Hext.
  - intros r x Hr Hx. destruct (Honly r x Hr Hx) as (p & v & Hin & Hrel).
    exists p, v. split; [now apply Hext | assumption].
Qed.

(** One more pair, on a path that neither leads through nor lies below
    the path of a pair that is there. *)
Lemma holds_put t P q w :
  holds t P -> q <> [] -> Forall plain q ->
  (forall p v, (p, v) ∈ P -> ~ p `prefix_of` q /\ ~ q `prefix_of` p) ->
  exists t', put t q w = Returned t' /\ holds t' ((q, w) :: P).
Proof.
  intros (Hroot & Hread & Honly) Hq Hplain Hfree.
  destruct (put_succeeds q w t Hroot Hq Hplain) as [t' Hput].
  { intros r s x -> Hr Hs Hx.
    destruct (Honly r x Hr Hx) as (p & v & Hin & [Hrp|Hpr]).
    - destruct Hrp as [s' ->].
      destruct s' as [|k s'].
      + rewrite app_nil_r in Hin. destruct (Hfree _ _ Hin) as [Hno _].
        destruct Hno. now apply prefix_app_r.
      + pose proof (Hread _ _ Hin) as Hv.
        apply lookup_below_object in Hv as [m Hm]; [|discriminate].
        rewrite Hx in Hm. injection Hm as ->. eauto.
    - destruct (Hfree _ _ Hin) as [Hno _]. destruct Hno.
      etransitivity; [exact Hpr | now apply prefix_app_r]. }
  exists t'. split; [assumption|]. repeat split.
  - eapply put_returned_object, Hput.
  - intros p v Hin. apply elem_of_cons in Hin as [[= -> ->]|Hin].
    + now apply (put_then_lookup_aux t).
    + rewrite (put_keeps_other_paths_aux t p q w t'); [now apply Hread | | assumption].
      destruct (Hfree _ _ Hin) as [Hpq Hqp].
      destruct (prefix_or_diverge p q) as [?|[?|?]]; done.
  - intros r x Hr Hx.
    destruct (prefix_or_diverge r q) as [Hrq|[Hqr|Hdiv]].
    + exists q, w. split; [apply list_elem_of_here | now left].
    + exists q, w. split; [apply list_elem_of_here | now right].
    + rewrite (put_keeps_other_paths_aux t r q w t') in Hx by assumption.
      destruct (Honly r x Hr Hx) as (p & v & Hin & Hrel).
      exists p, v. split; [now apply list_elem_of_further | assumption].
Qed.

(** The second loop over names none of whose paths leads through or
    equals the path of another. *)
Lemma second_loop_holds d config items done t :
  holds t ((fun n => (JsString.split d n, config_get n config)) <$> done) ->
  (forall n, n ∈ items ->
     JsString.split d n <> [] /\ Forall plain (JsString.split d n)) ->
  (forall n1 n2, n1 ∈ done ++ items -> n2 ∈ done ++ items ->
     JsString.split d n1 `prefix_of` JsString.split d n2 -> n1 = n2) ->
  NoDup (done ++ items) ->
  exists t',
    second_loop d config items t = Returned t' /\
    holds t' ((fun n => (JsString.split d n, config_get n config))
                <$> (done ++ items)).
Proof.
  revert done t. induction items as [|n items IH]; intros done t Ht Hgood Hfree Hnd.
  - exists t. rewrite app_nil_r. now split.
  - destruct (Hgood n (list_elem_of_here _ _)) as [Hn Hplain].
    destruct (holds_put t _ (JsString.split d n) (config_get n config) Ht Hn Hplain)
      as (t1 & Hput & Ht1).
    { intros p v Hin. apply list_elem_of_fmap in Hin as (n' & [= -> ->] & Hn').
      assert (n' <> n).
      { intros ->. apply NoDup_app in Hnd as (_ & Hnd & _).
        apply (Hnd n Hn'), list_elem_of_here. }
      split; intros Hpre; [apply (Hfree n' n) in Hpre | apply (Hfree n n') in Hpre];
        try done; rewrite elem_of_app, ?elem_of_cons; auto. }
    destruct (IH (done ++ [n]) t1) as (t' & Hloop & Ht').
    + eapply holds_ext; [|exact Ht1]. intros pair.
      rewrite fmap_app, elem_of_app, elem_of_cons. cbn.
      rewrite list_elem_of_singleton. tauto.
    + intros n' Hn'. apply Hgood. now apply list_elem_of_further.
    + rewrite <- app_assoc. exact Hfree.
    + now rewrite <- app_assoc.
    + exists t'. cbn [second_loop]. unfold place. rewrite Hput. cbn.
      rewrite <- app_assoc in Ht'. now split.
Qed.

Lemma second_loop_object d config items t t' :
  (exists m, t = VObj m) -> second_loop d config items t = Returned t' ->
  exists m', t' = VObj m'.
Proof.
  revert t. induction items as [|n items IH]; intros t Ht; cbn.
  - intros [= <-]. exact Ht.
  - destruct (place d t n (config_get n config)) as [t1| |] eqn:Hplace; cbn;
      intros Hloop; try discriminate Hloop.
    apply (IH t1); [|assumption]. eapply put_returned_object, Hplace.
Qed.

(** *** The order of [for ... in] *)

Lemma insert_index_perm (i : N) (k : string) (l : list (N * string)) :
  insert_index i k l ≡ₚ (i, k) :: l.
Proof.
  induction l as [|[j k'] l IH]; cbn; [reflexivity|].
  destruct (i <? j)%N; [reflexivity|]. rewrite IH. apply Permutation_swap.
Qed.

(** [for ... in] visits every property once. *)
Lemma for_in_perm (config : config_t) : for_in config ≡ₚ config.*1.
Proof.
  unfold for_in. induction config as [|[k v] config IH]; [reflexivity|].
  cbn [fold_right fmap list_fmap fst List.filter].
  destruct (array_index k) as [i|].
  - rewrite insert_index_perm. cbn. now rewrite IH.
  - rewrite <- Permutation_middle. now rewrite IH.
Qed.

End TreeReads.

(** ** What [_parseSecrets] builds from names that keep out of each
    other's way *)

Section ParsedTree.

Local Open Scope list_scope.

Context `{JSON}.

Lemma config_update_Some (name : string) (v : value) (c c' : config_t) :
  config_update name v c = Some c' ->
  c'.*1 = c.*1 /\ name ∈ c.*1 /\
  forall n, config_get n c' = if decide (n = name) then v else config_get n c.
Proof.
  revert c'. induction c as [|[k w] c IH]; intros c'; cbn; [discriminate|].
  destruct (String.eqb_spec k name) as [->|Hk].
  - intros [= <-]. cbn. repeat split; [apply list_elem_of_here|].
    intros n. destruct (String.eqb_spec name n) as [->|Hn].
    + now rewrite decide_True.
    + now rewrite decide_False by congruence.
  - destruct (config_update name v c) as [c1|]; [|discriminate].
    intros [= <-]. destruct (IH c1 eq_refl) as (Hkeys & Hin & Hget).
    cbn. rewrite Hkeys. repeat split; [now apply list_elem_of_further|].
    intros n. destruct (String.eqb_spec k n) as [->|Hn]; [|apply Hget].
    now rewrite decide_False by congruence.
Qed.

Lemma config_update_None (name : string) (v : value) (c : config_t) :
  config_update name v c = None -> name ∉ c.*1.
Proof.
  induction c as [|[k w] c IH]; cbn; [intros _; apply not_elem_of_nil|].
  destruct (String.eqb_spec k name) as [->|Hk]; [discriminate|].
  destruct (config_update name v c); [discriminate|].
  intros _. rewrite not_elem_of_cons. split; [congruence | now apply IH].
Qed.

Lemma config_get_new (c : config_t) (name : string) (v : value) (n : string) :
  name ∉ c.*1 ->
  config_get n (c ++ [(name, v)])
  = if decide (n = name) then v else config_get n c.
Proof.
  induction c as [|[k w] c IH]; cbn; intros Hnew.
  - destruct (String.eqb_spec name n) as [->|Hn].
    + now rewrite decide_True.
    + now rewrite decide_False by congruence.
  - apply not_elem_of_cons in Hnew as [Hk Hnew].
    destruct (String.eqb_spec k n) as [->|Hn]; [|now apply IH].
    now rewrite decide_False by congruence.
Qed.

Lemma config_set_spec (name : string) (v : value) (c : config_t) :
  name <> "__proto__" -> NoDup c.*1 ->
  exists c', config_set name v c = Returned c' /\ NoDup c'.*1 /\
    (forall n, n ∈ c'.*1 <-> n = name \/ n ∈ c.*1) /\
    (forall n, config_get n c' = if decide (n = name) then v else config_get n c).
Proof.
  intros Hname Hnd. unfold config_set.
  rewrite (proj2 (String.eqb_neq _ _) Hname).
  destruct (config_update name v c) as [c'|] eqn:Hupd.
  - apply config_update_Some in Hupd as (Hkeys & Hin & Hget).
    exists c'. rewrite Hkeys. repeat split; try done.
    + auto.
    + intros [->|Hn]; done.
  - apply config_update_None in Hupd.
    exists (c ++ [(name, v)]). rewrite fmap_app. cbn. repeat split.
    + apply NoDup_app. repeat split; [done | | apply NoDup_singleton].
      intros n Hn ->%list_elem_of_singleton. done.
    + rewrite elem_of_app, list_elem_of_singleton. tauto.
    + rewrite elem_of_app, list_elem_of_singleton. tauto.
    + intros n. now apply config_get_new.
Qed.

(** The first loop keeps one entry for each stripped name, with the
    value of the last record of that name. *)
Lemma first_loop_collects (this : Secrets) (list : list SecretValue)
  (acc : config_t) :
  Forall (fun s => strip this (Name s) <> "__proto__") list ->
  NoDup acc.*1 ->
  exists c, first_loop this list acc = Returned c /\ NoDup c.*1 /\
    (forall n, n ∈ c.*1 <->
       n ∈ acc.*1 \/ n ∈ (fun s => strip this (Name s)) <$> list) /\
    (forall n, config_get n c
               = match latest this n list with
                 | Some s => decoded_value s
                 | None => config_get n acc
                 end).
Proof.
  intros Hnames. revert acc.
  induction Hnames as [|s list Hs _ IH]; intros acc Hnd.
  - exists acc. cbn. repeat split; try done.
    + auto.
    + intros [?|Hn]; [done | now apply elem_of_nil in Hn].
  - cbn [first_loop]. rewrite decode_into_value.
    destruct (config_set_spec _ (decoded_value s) acc Hs Hnd)
      as (acc' & -> & Hnd' & Hkeys' & Hget').
    destruct (IH acc' Hnd') as (c & Hloop & Hndc & Hkeys & Hget).
    exists c. cbn. repeat split; try done.
    + intros Hn. apply Hkeys in Hn as [Hn|Hn].
      * apply Hkeys' in Hn as [->|Hn]; [right; apply list_elem_of_here | now left].
      * right. now apply list_elem_of_further.
    + intros [Hn|Hn]; apply Hkeys.
      * left. apply Hkeys'. now right.
      * apply elem_of_cons in Hn as [->|Hn]; [left; apply Hkeys'; now left | now right].
    + intros n. rewrite Hget, Hget'.
      destruct (latest this n list); [reflexivity|].
      destruct (String.eqb_spec (strip this (Name s)) n) as [<-|Hn].
      * now rewrite decide_True.
      * now rewrite decide_False by congruence.
Qed.

Lemma latest_of_member (this : Secrets) (list : list SecretValue) (s : SecretValue) :
  s ∈ list -> exists last, latest this (strip this (Name s)) list = Some last.
Proof.
  induction 1 as [s list|s s' list _ IH]; cbn.
  - destruct (latest this _ list); [eauto|]. rewrite String.eqb_refl. eauto.
  - destruct IH as [last ->]. eauto.
Qed.

(** A record whose stripped name no other record has is the last of its
    name. *)
Lemma latest_unique (this : Secrets) (list : list SecretValue) (s : SecretValue) :
  NoDup ((fun s => strip this (Name s)) <$> list) ->
  s ∈ list -> latest this (strip this (Name s)) list = Some s.
Proof.
  induction list as [|s' list IH]; intros Hnd Hin; [now apply elem_of_nil in Hin|].
  cbn in Hnd. apply NoDup_cons in Hnd as [Hnew Hnd].
  apply elem_of_cons in Hin as [->|Hin]; cbn.
  - destruct (latest this _ list) as [later|] eqn:Hlater.
    + exfalso. apply Hnew. clear -Hlater.
      induction list as [|x list IH]; cbn in *; [discriminate|].
      destruct (latest this _ list); [right; now apply IH|].
      destruct (String.eqb_spec (strip this (Name x)) (strip this (Name s')));
        [|discriminate]. rewrite <- e. apply list_elem_of_here.
    + now rewrite String.eqb_refl.
  - now rewrite (IH Hnd Hin).
Qed.

(** X14: when no stripped name is [__proto__], every segment is plain and no
    path leads through or equals the path of a record of another name,
    [_parseSecrets] returns a tree, and the tree holds at the path of
    every record the decoded value of the last record of that name: the
    record's own when no two records share a name. The tree holds
    nothing else: whatever is read in it lies on the way to a record's
    path or below one. The order of the records plays no part. *)
Theorem parseSecrets_places_records (this : Secrets) (list : list SecretValue) :
  let d := delimiter this in
  let names := (fun s => strip this (Name s)) <$> list in
  d <> "" ->
  Forall (fun n => n <> "__proto__" /\ Forall plain (JsString.split d n)) names ->
  Forall (fun n1 =>
    Forall (fun n2 =>
      JsString.split d n1 `prefix_of` JsString.split d n2 -> n1 = n2) names)
    names ->
  exists tree,
    _parseSecrets this list = Returned tree /\
    (forall s, s ∈ list ->
       exists last, latest this (strip this (Name s)) list = Some last /\
         lookup_path tree (path_of this (Name s)) = Some (decoded_value last)) /\
    (NoDup names -> forall s, s ∈ list ->
       lookup_path tree (path_of this (Name s)) = Some (decoded_value s)) /\
    (forall r x, r <> [] -> lookup_path tree r = Some x ->
       exists s, s ∈ list /\
         (r `prefix_of` path_of this (Name s) \/ path_of this (Name s) `prefix_of` r)).
Proof.
  intros d names Hd Hgood Hfree.
  destruct (first_loop_collects this list [])
    as (c & Hloop & Hnd & Hkeys & Hget).
  { pose proof Hgood as Hg. unfold names in Hg. rewrite Forall_fmap in Hg.
    eapply Forall_impl; [exact Hg|]. now intros s [Hn _]. }
  { apply NoDup_nil_2. }
  assert (Hitems : forall n, n ∈ for_in c <-> n ∈ names).
  { intros n. rewrite for_in_perm, Hkeys. split; [intros [Hn|Hn] | auto]; try done.
    now apply elem_of_nil in Hn. }
  destruct (second_loop_holds d c (for_in c) [] (VObj ∅)) as (tree & Htree & Hholds).
  - apply holds_empty.
  - intros n Hn. apply Hitems in Hn.
    rewrite Forall_forall in Hgood. destruct (Hgood n Hn) as [_ Hplain].
    split; [now apply split_nonempty | assumption].
  - cbn [app]. intros n1 n2 Hn1 Hn2. apply Hitems in Hn1, Hn2.
    rewrite Forall_forall in Hfree. specialize (Hfree n1 Hn1).
    rewrite Forall_forall in Hfree. exact (Hfree n2 Hn2).
  - cbn [app]. now rewrite for_in_perm.
  - cbn [app] in Hholds. destruct Hholds as (_ & Hread & Honly).
    assert (Hat : forall s, s ∈ list ->
              lookup_path tree (path_of this (Name s))
              = Some (config_get (strip this (Name s)) c)).
    { intros s Hs. apply Hread.
      apply (list_elem_of_fmap_2'
               (fun n => (JsString.split d n, config_get n c)) _ (strip this (Name s)));
        [|reflexivity].
      apply Hitems. now apply (list_elem_of_fmap_2 (fun s => strip this (Name s))). }
    exists tree. split; [|split; [|split]].
    + unfold _parseSecrets. rewrite Hloop. exact Htree.
    + intros s Hs. destruct (latest_of_member this list s Hs) as [last Hlast].
      exists last. split; [assumption|]. now rewrite (Hat s Hs), Hget, Hlast.
    + intros Hunique s Hs.
      now rewrite (Hat s Hs), Hget, (latest_unique this list s Hunique Hs).
    + intros r x Hr Hx. destruct (Honly r x Hr Hx) as (p & v & Hin & Hrel).
      apply list_elem_of_fmap in Hin as (n & [= -> ->] & Hn).
      apply Hitems, list_elem_of_fmap in Hn as (s & -> & Hs).
      exists s. split; assumption.
Qed.

(** X15: whatever the records, what [_parseSecrets] returns is an object, the
    empty one for no record at all. *)
Theorem parseSecrets_returns_object (this : Secrets) :
  _parseSecrets this [] = Returned (VObj ∅) /\
  forall list,
    match _parseSecrets this list with
    | Returned tree => exists m, tree = VObj m
    | _ => True
    end.
Proof.
  split; [reflexivity|]. intros list. unfold _parseSecrets.
  destruct (first_loop this list []) as [c| |]; cbn; try exact I.
  destruct (second_loop _ c _ _) as [tree| |] eqn:Hloop; try exact I.
  eapply second_loop_object; [|exact Hloop]. eauto.
Qed.

End ParsedTree.

Lemma parseSecrets_places_records_witness :
  let this := mkSecrets "/" (SStr "prod") (SStr "us-west-2") (SStr "acme") 0 in
  exists tree,
    @_parseSecrets sample_JSON this
      [mkSecretValue "acme/prod/db/host" (Some "localhost");
       mkSecretValue "acme/prod/db/port" (Some "5432");
       mkSecretValue "acme/prod/db/host" (Some "0")]
    = Returned tree /\
    lookup_path tree ["db"; "port"] = Some (VNum (number_of_Z 5432)) /\
    lookup_path tree ["db"; "host"] = Some (VNum (number_of_Z 0)).
Proof.
  intros this.
  destruct (@parseSecrets_places_records sample_JSON this
              [mkSecretValue "acme/prod/db/host" (Some "localhost");
               mkSecretValue "acme/prod/db/port" (Some "5432");
               mkSecretValue "acme/prod/db/host" (Some "0")])
    as (tree & Htree & Hlast & _).
  - discriminate.
  - repeat constructor; discriminate.
  - apply (bool_decide_unpack _). vm_compute. exact I.
  - exists tree. split; [exact Htree|]. split.
    + destruct (Hlast (mkSecretValue "acme/prod/db/port" (Some "5432")))
        as (last & Hl & Hread).
      { apply list_elem_of_further, list_elem_of_here. }
      vm_compute in Hl. injection Hl as <-. exact Hread.
    + destruct (Hlast (mkSecretValue "acme/prod/db/host" (Some "localhost")))
        as (last & Hl & Hread).
      { apply list_elem_of_here. }
      vm_compute in Hl. injection Hl as <-. exact Hread.
Defined.

(** ** [getSecretSync] *)

Section SyncFacts.

Context `{JSON}.

Lemma or_empty_truthy (x : value) : truthy (or_empty x) = true.
Proof. unfold or_empty. now destruct (truthy x) eqn:Hx. Qed.

(** What [getSecretSync] makes of a reply that parsed. *)
Lemma getSecretSync_parsed (text : string) (res : value) :
  JSON_parse text = Some res ->
  getSecretSync (Some text) =
  (err ← field res wire_error;
   if truthy err then
     message ← field err wire_message;
     message ← (if truthy message then SyncReturned message
                else field err wire_code);
     SyncThrown (ErrorOf message)
   else
     config ← field res wire_config;
     SyncReturned (or_empty (decode_config config))).
Proof. intros Hres. unfold getSecretSync, sync_JSON_parse. now rewrite Hres. Qed.

Lemma field_truthy (v : value) (k : wire_key) :
  truthy v = true -> exists x, field v k = SyncReturned x.
Proof. destruct v; try discriminate; cbn; eauto. Qed.

(** X16: whatever the child process writes, a call that returns gives a
    truthy value: a config that is missing, [null], [false], zero or the
    empty string, as it is or once decoded, comes back as the empty
    object. *)
Theorem getSecretSync_returns_truthy (stdout : option string) :
  match getSecretSync stdout with
  | SyncReturned config => truthy config = true
  | SyncThrown _ => True
  end.
Proof.
  destruct stdout as [text|]; [|exact I].
  destruct (JSON_parse text) as [res|] eqn:Hres.
  - rewrite (getSecretSync_parsed text res Hres).
    destruct (field res wire_error) as [err|]; cbn; [|exact I].
    destruct (truthy err) eqn:Herr.
    + destruct (field_truthy err wire_message Herr) as [message ->]. cbn.
      destruct (truthy message); cbn; [exact I|].
      now destruct (field_truthy err wire_code Herr) as [code ->].
    + destruct (field res wire_config); cbn; [apply or_empty_truthy | exact I].
  - unfold getSecretSync, sync_JSON_parse. now rewrite Hres.
Qed.

(** X17: a [SyntaxError] comes out of a call exactly when the reply as a
    whole does not parse. A config in it that does not parse raises
    nothing. *)
Theorem getSecretSync_syntax_error (text : string) :
  getSecretSync (Some text) = SyncThrown (Native SyntaxError)
  <-> JSON_parse text = None.
Proof.
  split.
  - destruct (JSON_parse text) as [res|] eqn:Hres; [|reflexivity].
    rewrite (getSecretSync_parsed text res Hres). intros Hthrown. exfalso.
    destruct (field res wire_error) as [err|f] eqn:Hfield; cbn in Hthrown.
    + destruct (truthy err) eqn:Herr.
      * destruct (field_truthy err wire_message Herr) as [message Hm].
        rewrite Hm in Hthrown. cbn in Hthrown.
        destruct (truthy message); cbn in Hthrown; [discriminate|].
        destruct (field_truthy err wire_code Herr) as [code Hc].
        rewrite Hc in Hthrown. discriminate.
      * destruct res; cbn in Hthrown; discriminate.
    + destruct res; cbn in Hfield; simplify_eq; discriminate.
  - intros Hres. unfold getSecretSync, sync_JSON_parse. now rewrite Hres.
Qed.

(** X18: a reply that carries an error object fails the call, whatever config
    it carries beside it: the [Error] thrown is made from the error's
    message when that is truthy and from its code when it is not. *)
Theorem getSecretSync_error_reply
  (text : string) (reply detail : gmap string value) :
  JSON_parse text = Some (VObj reply) ->
  reply !! "error" = Some (VObj detail) ->
  let message := default VUndefined (detail !! "message") in
  let code := default VUndefined (detail !! "code") in
  getSecretSync (Some text)
  = SyncThrown (ErrorOf (if truthy message then message else code)).
Proof.
  intros Hres Herr message code.
  rewrite (getSecretSync_parsed text _ Hres). cbn. rewrite Herr. cbn.
  fold message. now destruct (truthy message).
Qed.

(** X19: a reply without an error whose config is a string gives what the
    tree builder keeps for a record with that string as its
    [SecretString], but for the empty object in place of a falsy
    value. *)
Theorem getSecretSync_decodes_as_parseSecrets
  (text : string) (reply : gmap string value) (secret : string) (name : string) :
  JSON_parse text = Some (VObj reply) ->
  truthy (default VUndefined (reply !! "error")) = false ->
  reply !! "config" = Some (VStr secret) ->
  getSecretSync (Some text)
  = SyncReturned (or_empty (decoded_value (mkSecretValue name (Some secret)))).
Proof.
  intros Hres Herr Hconfig.
  rewrite (getSecretSync_parsed text _ Hres). cbn. rewrite Herr, Hconfig.
  reflexivity.
Qed.

End SyncFacts.

Lemma getSecretSync_error_reply_witness :
  @getSecretSync sample_JSON (Some sample_error_reply)
  = SyncThrown (ErrorOf (VStr "Throttled")).
Proof.
  exact (@getSecretSync_error_reply sample_JSON sample_error_reply
           {[ "error" := VObj {[ "code" := VStr "Throttled" ]} ]}
           {[ "code" := VStr "Throttled" ]} eq_refl eq_refl).
Defined.

Lemma getSecretSync_decodes_as_parseSecrets_witness :
  @getSecretSync sample_JSON (Some sample_reply)
  = SyncReturned (VNum (number_of_Z 5432)).
Proof.
  exact (@getSecretSync_decodes_as_parseSecrets sample_JSON sample_reply
           {[ "config" := VStr "5432" ]} "5432" "db/port"
           eq_refl eq_refl eq_refl).
Defined.

Example getSecretSync_samples :
  @getSecretSync sample_JSON (Some "{}") = SyncReturned (VObj ∅) /\
  @getSecretSync sample_JSON (Some "0") = SyncReturned (VObj ∅) /\
  @getSecretSync sample_JSON (Some "null") = SyncThrown (Native TypeError) /\
  @getSecretSync sample_JSON (Some "localhost") = SyncThrown (Native SyntaxError) /\
  @getSecretSync sample_JSON None = SyncThrown (Native TypeError).
Proof. repeat split. Qed.

(** ** A path and a longer one, in any tree *)

Section PrefixCollision.

Local Open Scope list_scope.

Implicit Types (t v w x old sub : value) (p q : list string).
Implicit Types (k : string) (m : gmap string value).

(** The shorter path goes through whenever the tree holds something
    below it: every node on its way is an object of the tree's own. *)
Lemma put_existing t p q v old :
  p <> [] -> q <> [] -> lookup_path t (p ++ q) = Some old ->
  exists t', put t p v = Returned t'.
Proof.
  revert t. induction p as [|k rest IH]; intros t Hp Hq Hold; [contradiction|].
  cbn in Hold. destruct t as [| | | | | |m]; try discriminate.
  destruct (m !! k) as [x|] eqn:Hk; [|discriminate]. cbn in Hold.
  destruct rest as [|k' rest].
  - change (put (VObj m) [k] v) with (store (VObj m) k v). cbn.
    rewrite Hk. eauto.
  - destruct (lookup_below_object x [k'] (rest ++ q) old) as [mx Hx].
    { destruct rest; [assumption | discriminate]. }
    { exact Hold. }
    cbn in Hx. destruct x as [| | | | | |m']; try discriminate.
    destruct (IH (VObj m') ltac:(discriminate) Hq Hold) as [t' Ht'].
    rewrite put_step by discriminate. cbn [enter]. rewrite Hk.
    change (or_empty (VObj m')) with (VObj m'). cbn. rewrite Ht'. cbn. eauto.
Qed.

(** The longer path, in a tree that holds [v] at the shorter one: the
    walk reaches [v], goes on in [v || {}], and the tree takes what
    comes back. *)
Lemma put_below t p q v w :
  p <> [] -> q <> [] -> lookup_path t p = Some v ->
  match put (or_empty v) q w with
  | Returned sub =>
      exists t', put t (p ++ q) w = Returned t' /\ lookup_path t' p = Some sub
  | Thrown e => put t (p ++ q) w = Thrown e
  | Unmodelled => put t (p ++ q) w = Unmodelled
  end.
Proof.
  revert t. induction p as [|k rest IH]; intros t Hp Hq Hv; [contradiction|].
  cbn in Hv. destruct t as [| | | | | |m]; try discriminate.
  destruct (m !! k) as [x|] eqn:Hk; [|discriminate]. cbn in Hv.
  destruct rest as [|k' rest].
  - injection Hv as ->. cbn [app].
    rewrite put_step by (destruct q; [contradiction | discriminate]).
    cbn [enter]. rewrite Hk. cbn.
    destruct (put (or_empty v) q w) as [sub|e|]; cbn; try reflexivity.
    eexists. split; [reflexivity|]. cbn. now rewrite lookup_insert_eq.
  - assert (Hx : exists m', x = VObj m').
    { cbn in Hv. destruct x; try discriminate. eauto. }
    destruct Hx as [m' ->].
    specialize (IH (VObj m') ltac:(discriminate) Hq Hv).
    change ((k :: k' :: rest) ++ q) with (k :: (k' :: rest) ++ q).
    rewrite put_step by discriminate. cbn [enter]. rewrite Hk.
    change (or_empty (VObj m')) with (VObj m'). cbn [mbind outcome_bind].
    destruct (put (or_empty v) q w) as [sub|e|].
    + destruct IH as (t' & -> & Ht'). cbn. eexists. split; [reflexivity|].
      cbn [lookup_path]. rewrite lookup_insert_eq. exact Ht'.
    + now rewrite IH.
    + now rewrite IH.
Qed.

(** C3, amended. For a path [p] and a longer one [p ++ q], in whatever
    tree the pairs processed before have built:
    - when the tree holds a value at [p ++ q], a pair at [p] processed
      then is placed, the tree holds its value [v] at [p], and what was
      below [p] is gone: the last processed wins;
    - when the tree holds [v] at [p], a pair at [p ++ q] processed then
      wins only over a falsy [v], which gives way to the mapping that
      leads to the later value; over a truthy primitive [v] the build
      throws [TypeError]; in a mapping [v] the walk goes on, and the
      round ends as placing the later value at [q] in [v] ends: with
      that value at [p ++ q] in what [p] then holds, or with what that
      throws. *)
Theorem prefix_collision_in_any_tree t p q v w :
  p <> [] -> q <> [] ->
  (forall old, lookup_path t (p ++ q) = Some old ->
     exists t', put t p v = Returned t' /\
       lookup_path t' p = Some v /\
       lookup_path t' (p ++ q) = lookup_path v q) /\
  (lookup_path t p = Some v ->
     (truthy v = false -> Forall plain q ->
        exists t', put t (p ++ q) w = Returned t' /\
          lookup_path t' p = Some (nest q w) /\
          lookup_path t' (p ++ q) = Some w) /\
     (truthy v = true -> primitive v = true -> Forall plain q ->
        put t (p ++ q) w = Thrown TypeError) /\
     (forall m, v = VObj m ->
        match put (VObj m) q w with
        | Returned sub =>
            exists t', put t (p ++ q) w = Returned t' /\
              lookup_path t' p = Some sub /\
              lookup_path t' (p ++ q) = Some w
        | Thrown e => put t (p ++ q) w = Thrown e
        | Unmodelled => put t (p ++ q) w = Unmodelled
        end)).
Proof.
  intros Hp Hq. split.
  - intros old Hold.
    destruct (put_existing t p q v old Hp Hq Hold) as [t' Ht'].
    exists t'. split; [assumption|].
    pose proof (put_then_lookup_aux _ _ _ _ Hp Ht') as Hread.
    split; [assumption|]. now rewrite lookup_path_app, Hread.
  - intros Hv. pose proof (put_below t p q v w Hp Hq Hv) as Hbelow.
    assert (Hpq : p ++ q <> []) by (destruct p; [contradiction | discriminate]).
    split; [|split].
    + intros Hfalsy Hplain. unfold or_empty in Hbelow. rewrite Hfalsy in Hbelow.
      rewrite put_fresh in Hbelow by assumption.
      destruct Hbelow as (t' & Ht' & Hsub). exists t'.
      split; [assumption|]. split; [assumption|].
      exact (put_then_lookup_aux _ _ _ _ Hpq Ht').
    + intros Htruthy Hprim Hplain. unfold or_empty in Hbelow.
      rewrite Htruthy in Hbelow. now rewrite put_primitive in Hbelow.
    + intros m ->. change (or_empty (VObj m)) with (VObj m) in Hbelow.
      destruct (put (VObj m) q w) as [sub|e|]; try assumption.
      destruct Hbelow as (t' & Ht' & Hsub). exists t'.
      split; [assumption|]. split; [assumption|].
      exact (put_then_lookup_aux _ _ _ _ Hpq Ht').
Qed.

End PrefixCollision.

Lemma prefix_collision_in_any_tree_witness :
  (exists t', put (VObj {[ "a" := VObj {[ "b" := VStr "y" ]} ]}) ["a"] (VStr "x")
              = Returned t' /\
     lookup_path t' ["a"] = Some (VStr "x") /\
     lookup_path t' ["a"; "b"] = None) /\
  put (VObj {[ "a" := VStr "x" ]}) ["a"; "b"] (VStr "y") = Thrown TypeError /\
  put (VObj {[ "a" := VObj {[ "b" := VStr "x" ]} ]}) ["a"; "b"; "c"] (VStr "y")
  = Thrown TypeError /\
  (exists t', put (VObj {[ "a" := VNull ]}) ["a"; "b"] (VStr "y") = Returned t' /\
     lookup_path t' ["a"] = Some (VObj {[ "b" := VStr "y" ]}) /\
     lookup_path t' ["a"; "b"] = Some (VStr "y")).
Proof.
  split; [|split; [|split]].
  - destruct (prefix_collision_in_any_tree
                (VObj {[ "a" := VObj {[ "b" := VStr "y" ]} ]})
                ["a"] ["b"] (VStr "x") (VStr "y")
                ltac:(discriminate) ltac:(discriminate)) as [Hlast _].
    exact (Hlast (VStr "y") eq_refl).
  - destruct (prefix_collision_in_any_tree
                (VObj {[ "a" := VStr "x" ]})
                ["a"] ["b"] (VStr "x") (VStr "y")
                ltac:(discriminate) ltac:(discriminate)) as [_ Hfirst].
    destruct (Hfirst eq_refl) as (_ & Hthrow & _).
    apply Hthrow; [reflexivity | reflexivity |].
    repeat constructor.
  - destruct (prefix_collision_in_any_tree
                (VObj {[ "a" := VObj {[ "b" := VStr "x" ]} ]})
                ["a"] ["b"; "c"] (VObj {[ "b" := VStr "x" ]}) (VStr "y")
                ltac:(discriminate) ltac:(discriminate)) as [_ Hfirst].
    destruct (Hfirst eq_refl) as (_ & _ & Hin).
    exact (Hin _ eq_refl).
  - destruct (prefix_collision_in_any_tree
                (VObj {[ "a" := VNull ]})
                ["a"] ["b"] VNull (VStr "y")
                ltac:(discriminate) ltac:(discriminate)) as [_ Hfirst].
    destruct (Hfirst eq_refl) as (Hfalsy & _).
    apply Hfalsy; [reflexivity|]. repeat constructor.
Defined.

(** ** The round trip of a written name *)

(** C4 as it is stated fails here. With the namespace [acme], the
    environment [prod] and the delimiter [/], the name handed over as the
    segments [a/b] and [c] is read back as three segments, and the name
    handed over as no segment at all as one empty segment; with the
    delimiter [aa], the segments [a] and [b] are read back as an empty
    segment and [ab]. *)
Lemma written_segments_not_read_back :
  let this d := mkSecrets d (SStr "prod") (SStr "us-west-2") (SStr "acme") 0 in
  let create segments :=
    mkCreateOptions (SArr segments) SUndefined SUndefined SUndefined None
      (VStr "s3cr3t") None in
  let read_back d segments :=
    path_of (this d)
      (ToString (CreateSecretCommand.Name (createSecret (this d) (create segments)))) in
  read_back "/" ["a/b"; "c"] = ["a"; "b"; "c"] /\
  read_back "/" ["a/b"; "c"] <> ["a/b"; "c"] /\
  read_back "/" [] = [""] /\
  read_back "/" [] <> [] /\
  read_back "aa" ["a"; "b"] = [""; "ab"] /\
  read_back "aa" ["a"; "b"] <> ["a"; "b"].
Proof. repeat split; try (vm_compute; reflexivity); vm_compute; discriminate. Qed.

(** C4, amended. With a namespace and an environment configured, the key
    parser takes off the written name exactly what [createSecret] put in
    front of it, for every name and delimiter: what is left is the name
    as it was handed over, the segments joined with the delimiter when it
    was an array, and the path of a name handed over as a string is that
    string split at the delimiter. When the delimiter is one character and the name was
    handed over as an array of at least one segment, none of which
    contains the delimiter, the path read back is that array. *)
Theorem written_segments_round_trip (this : Secrets) (create : CreateOptions) :
  struthy (namespace this) = true ->
  struthy (env this) = true ->
  let written := ToString (CreateSecretCommand.Name (createSecret this create)) in
  (forall name : string, c_name create = SStr name ->
     strip this written = name /\
     path_of this written = JsString.split (delimiter this) name) /\
  (forall segments : list string, c_name create = SArr segments ->
     strip this written = JsString.join (delimiter this) segments) /\
  (forall (c : ascii) (segments : list string),
     delimiter this = String c "" ->
     c_name create = SArr segments ->
     segments <> [] ->
     Forall (fun x => JsString.includes (String c "") x = false) segments ->
     path_of this written = segments).
Proof.
  intros Hns Henv written. unfold written, path_of.
  rewrite createSecret_Name_prefixed by assumption.
  cbn [ToString]. rewrite strip_composed.
  split; [|split].
  - intros name ->. split; reflexivity.
  - intros segments ->. reflexivity.
  - intros c segments Hd -> Hne Hall. cbn. rewrite Hd.
    now apply split_join.
Qed.

Lemma written_segments_round_trip_witness :
  let this := mkSecrets "/" (SStr "prod") (SStr "us-west-2") (SStr "acme") 0 in
  let create :=
    mkCreateOptions (SArr ["db"; "password"]) SUndefined SUndefined SUndefined
      None (VStr "s3cr3t") None in
  ToString (CreateSecretCommand.Name (createSecret this create))
  = "acme/prod/db/password" /\
  strip this "acme/prod/db/password" = "db/password" /\
  path_of this "acme/prod/db/password" = ["db"; "password"].
Proof.
  intros this create. split; [reflexivity|].
  destruct (written_segments_round_trip this create eq_refl eq_refl)
    as (_ & Hstrip & Hpath).
  split; [exact (Hstrip _ eq_refl)|].
  apply (Hpath "/"%char); [reflexivity | reflexivity | discriminate |].
  repeat constructor.
Defined.

(** ** Unset prefixes *)

Lemma append_same_length (a a' b b' : string) :
  String.length a = String.length a' -> a ++ b = a' ++ b' -> a = a' /\ b = b'.
Proof.
  revert a'. induction a as [|c a IH]; intros [|c' a'] Hlen Heq;
    try discriminate Hlen.
  - now split.
  - rewrite !append_cons in Heq. injection Heq as -> Heq.
    injection Hlen as Hlen. destruct (IH a' Hlen Heq) as [-> ->]. now split.
Qed.

(** Only one string is [s] without the first occurrence of [p]: the one
    [replace] returns. *)
Lemma first_occurrence_removed_replace (p s t : string) :
  first_occurrence_removed p s t -> t = JsString.replace p s.
Proof.
  intros [[Hin ->]|(pre & post & Hs & Hmin & ->)].
  - symmetry. now apply replace_absent.
  - destruct (replace_present p s) as (pre' & post' & Hs' & Hmin' & ->).
    { rewrite Hs. apply includes_app. }
    assert (Hlen : String.length pre = String.length pre').
    { apply Nat.le_antisymm; [exact (Hmin _ _ Hs') | exact (Hmin' _ _ Hs)]. }
    rewrite Hs in Hs'.
    destruct (append_same_length _ _ _ _ Hlen Hs') as [<- Hrest].
    destruct (append_same_length p p _ _ eq_refl Hrest) as [_ <-].
    reflexivity.
Qed.

(** The literal reading of C10 fails here. The instance is built with
    the namespace [l] and with [all], so its environment is [null]. The
    name [null/x] contains the word ["null"] followed by the delimiter,
    and without that first occurrence it would be [x]. The parser first
    takes the namespace and the delimiter out, which leaves [nulx]; the
    word and the delimiter no longer occur in it, and [nulx] is the
    path. *)
Lemma null_word_gone_before_its_removal :
  let this :=
    constructor (mkProcessEnv SUndefined SUndefined)
      (mkOptions SUndefined SUndefined SUndefined (SStr "l") true) in
  env this = SNull /\
  JsString.includes ("null" ++ delimiter this) "null/x" = true /\
  first_occurrence_removed ("null" ++ delimiter this) "null/x" "x" /\
  strip this "null/x" = "nulx" /\
  path_of this "null/x" = ["nulx"] /\
  path_of this "null/x" <> JsString.split (delimiter this) "x".
Proof.
  cbn zeta. repeat split; try reflexivity.
  - right. exists "", "x". repeat split. intros pre' post' _. cbn. lia.
  - vm_compute. discriminate.
Qed.

Section SingleRecord.

Context `{JSON}.

(** A list of one record gives the tree that holds the record's value at
    the record's path and nothing else. *)
Lemma parseSecrets_single (this : Secrets) (secret : SecretValue) :
  delimiter this <> "" ->
  strip this (Name secret) <> "__proto__" ->
  Forall plain (path_of this (Name secret)) ->
  _parseSecrets this [secret]
  = Returned (nest (path_of this (Name secret)) (decoded_value secret)).
Proof.
  intros Hd Hname Hplain. unfold _parseSecrets. cbn [first_loop].
  rewrite decode_into_value. unfold config_set.
  rewrite (eqb_proto _ Hname). cbn -[for_in second_loop].
  rewrite for_in_single. cbn [second_loop mbind outcome_bind].
  unfold place. cbn [config_get]. rewrite String.eqb_refl.
  fold (path_of this (Name secret)).
  rewrite put_fresh; [reflexivity | | assumption].
  now apply split_nonempty.
Qed.

(** C10, amended. Whatever the instance holds as its namespace and
    environment, the key parser takes the first occurrence of the
    namespace followed by the delimiter out of a record's name, then the
    first occurrence of the environment followed by the delimiter out of
    the name so obtained, and splits what is left; a list of that one
    record gives the tree with the record's value at that path. With no
    namespace configured the string taken out of the record's name is
    the word ["undefined"] and the delimiter. With the environment
    [null] the string taken out next is the word ["null"] and the
    delimiter: out of the name as the first replacement left it, which
    is the record's name when the namespace and the delimiter do not
    occur in it. A string that does not occur takes nothing out. *)
Theorem unset_prefix_words_stripped (this : Secrets) (secret : SecretValue) :
  let d := delimiter this in
  exists once final : string,
    first_occurrence_removed (ToString (namespace this) ++ d) (Name secret) once /\
    first_occurrence_removed (ToString (env this) ++ d) once final /\
    (namespace this = SUndefined ->
     first_occurrence_removed ("undefined" ++ d) (Name secret) once) /\
    (env this = SNull -> first_occurrence_removed ("null" ++ d) once final) /\
    (JsString.includes (ToString (namespace this) ++ d) (Name secret) = false ->
     once = Name secret) /\
    strip this (Name secret) = final /\
    path_of this (Name secret) = JsString.split d final /\
    (d <> "" -> final <> "__proto__" -> Forall plain (JsString.split d final) ->
     exists x, _parseSecrets this [secret]
               = Returned (nest (JsString.split d final) x)).
Proof.
  intros d.
  exists (JsString.replace (ToString (namespace this) ++ d) (Name secret)),
         (strip this (Name secret)).
  split; [apply replace_first_occurrence|].
  split; [apply replace_first_occurrence|].
  split; [intros Hns; rewrite Hns; apply replace_first_occurrence|].
  split; [intros Henv; unfold strip; rewrite Henv; apply replace_first_occurrence|].
  split; [apply replace_absent|].
  split; [reflexivity|]. split; [reflexivity|].
  intros Hd Hname Hplain. exists (decoded_value secret).
  now apply parseSecrets_single.
Qed.

End SingleRecord.

Lemma unset_prefix_words_stripped_witness :
  let this :=
    constructor (mkProcessEnv SUndefined SUndefined)
      (mkOptions SUndefined (SStr "prod") SUndefined SUndefined false) in
  let all :=
    constructor (mkProcessEnv SUndefined SUndefined)
      (mkOptions SUndefined (SStr "prod") SUndefined (SStr "acme") true) in
  strip this "prod/undefined/key" = "key" /\
  path_of this "prod/undefined/key" = ["key"] /\
  strip all "acme/app/null/key" = "app/key" /\
  path_of all "acme/app/null/key" = ["app"; "key"].
Proof.
  intros this all.
  destruct (@unset_prefix_words_stripped sample_JSON this
              (mkSecretValue "prod/undefined/key" (Some "0")))
    as (once & final & _ & Henv & Hns & _ & _ & Hstrip & Hpath & _).
  destruct (@unset_prefix_words_stripped sample_JSON all
              (mkSecretValue "acme/app/null/key" (Some "0")))
    as (once' & final' & Hns' & _ & _ & Henv' & _ & Hstrip' & Hpath' & _).
  apply first_occurrence_removed_replace in Hns; [|reflexivity].
  apply first_occurrence_removed_replace in Henv.
  apply first_occurrence_removed_replace in Hns'.
  apply first_occurrence_removed_replace in Henv'; [|reflexivity].
  subst once final once' final'.
  split; [exact Hstrip|]. split; [exact Hpath|].
  split; [exact Hstrip' | exact Hpath'].
Defined.

(** ** The value kept for a record *)

Section KeptValue.

Context `{JSON}.





End KeptValue.

